(** * py-sudoku: the [Grid] class of [sudoku.py]

    A shallow embedding of the NumPy-backed Sudoku grid and of its
    queue-driven solver, followed by the verification of its specification.

    The private array [self.__G] (shape 9x9, dtype int8) is a list of rows.
    Every method that indexes the array can raise [IndexError]; such methods
    live in the [result] monad.  Methods that mutate [self] return the new
    array. *)

From stdpp Require Import prelude strings pretty sorting.
From Stdlib Require Import ZArith Lia.

Local Open Scope Z_scope.

(** ** Exceptions *)

Inductive exn : Type := IndexError.

Inductive result (A : Type) : Type :=
| Ok (a : A)
| Raise (e : exn).

Arguments Ok {A} a.
Arguments Raise {A} e.

#[global] Instance result_ret : MRet result := fun A a => Ok a.

#[global] Instance result_bind : MBind result := fun A B f m =>
  match m with
  | Ok a => f a
  | Raise e => Raise e
  end.

(** A [for] loop whose body may raise: the state is threaded from left to
    right and the first exception leaves the loop. *)
Fixpoint for_each {A S : Type} (body : S → A → result S) (l : list A) (s : S)
  : result S :=
  match l with
  | [] => Ok s
  | a :: l' => s' ← body s a; for_each body l' s'
  end.

(** Python's [range(lo, hi)]. *)
Definition range (lo hi : Z) : list Z := seqZ lo (hi - lo).

(** ** The NumPy operations the class uses *)

Module Np.

(** Storing into an int8 array keeps the low eight bits, two's complement. *)
Definition wrap8 (v : Z) : Z := (v + 128) `mod` 256 - 128.

Definition int8 (v : Z) : Prop := -128 ≤ v ≤ 127.

(** An integer index on an axis of length [n]: negative indices count from
    the end, anything outside [-n, n) raises.  (For an index that fits the
    index type of NumPy, 64 bits signed.) *)
Definition norm_index (n i : Z) : result Z :=
  if bool_decide (0 ≤ i < n) then Ok i
  else if bool_decide (- n ≤ i < 0) then Ok (i + n)
  else Raise IndexError.

(** [a[i]] *)
Definition item {A : Type} (a : list A) (i : Z) : result A :=
  k ← norm_index (Z.of_nat (length a)) i;
  match a !! Z.to_nat k with
  | Some x => Ok x
  | None => Raise IndexError
  end.

(** [a[i] = x] *)
Definition set_item {A : Type} (a : list A) (i : Z) (x : A) : result (list A) :=
  k ← norm_index (Z.of_nat (length a)) i;
  Ok (<[Z.to_nat k := x]> a).

(** [a[i, j]] *)
Definition item2 (a : list (list Z)) (i j : Z) : result Z :=
  line ← item a i; item line j.

(** [a[i, j] = v] on an int8 array *)
Definition set_item2 (a : list (list Z)) (i j v : Z) : result (list (list Z)) :=
  line ← item a i;
  line' ← set_item line j (wrap8 v);
  set_item a i line'.

(** [a[:, j]] *)
Fixpoint column (a : list (list Z)) (j : Z) : result (list Z) :=
  match a with
  | [] => Ok []
  | line :: a' => x ← item line j; xs ← column a' j; Ok (x :: xs)
  end.

(** A slice bound on an axis of length [n] is clipped, never an error. *)
Definition clip (n i : Z) : Z :=
  if bool_decide (i < 0) then Z.max 0 (i + n) else Z.min i n.

(** [a[start:stop]] *)
Definition slice {A : Type} (a : list A) (start stop : Z) : list A :=
  let n := Z.of_nat (length a) in
  let lo := clip n start in
  let hi := clip n stop in
  take (Z.to_nat (hi - lo)) (drop (Z.to_nat lo) a).

(** [a[x0:x1, y0:y1]] *)
Definition slice2 (a : list (list Z)) (x0 x1 y0 y1 : Z) : list (list Z) :=
  (λ line, slice line y0 y1) <$> slice a x0 x1.

(** [i in a] for a one-dimensional array *)
Definition contains (i : Z) (a : list Z) : bool := existsb (Z.eqb i) a.

(** [i in a] for a two-dimensional array *)
Definition contains2 (i : Z) (a : list (list Z)) : bool :=
  existsb (contains i) a.

(** An array handed in from outside: its shape and its items, row-major. *)
Record ndarray : Type := Nd { shape : list Z; items : list Z }.

(** The items of a two-dimensional array of [m] columns, row by row. *)
Definition rows (n m : nat) (flat : list Z) : list (list Z) :=
  reshape (replicate n m) flat.

End Np.

(** ** class Grid *)

(** [self.__G]; the class never changes its shape. *)
Abbreviation grid := (list (list Z)).

(** [Grid()]: [np.zeros((9, 9), dtype = np.int8)] *)
Definition init : grid := replicate 9 (replicate 9 0).

Definition set_number (G : grid) (row column value : Z) : result grid :=
  Np.set_item2 G row column value.

Definition get_number (G : grid) (row column : Z) : result Z :=
  Np.item2 G row column.

Definition clear (G : grid) : result grid :=
  for_each (λ G row,
    for_each (λ G column, Np.set_item2 G row column 0) (range 0 9) G)
    (range 0 9) G.

(** The two shape tests guard the assignment; any other shape falls through
    both [if]s and nothing is stored. *)
Definition set_grid (G : grid) (a : Np.ndarray) : grid :=
  if bool_decide (length (Np.shape a) = 2%nat) then
    if bool_decide (Np.shape a !! 0%nat = Some 9)
       && bool_decide (Np.shape a !! 1%nat = Some 9)
    then map (map Np.wrap8) (Np.rows 9 9 (Np.items a))
    else G
  else G.

Definition get_grid (G : grid) : Np.ndarray :=
  Np.Nd [9; 9] (mjoin G).

Definition is_solved (G : grid) (row column : Z) : result bool :=
  n ← Np.item2 G row column; Ok (bool_decide (0 < n)).

Definition is_completed (G : grid) : result bool :=
  for_each (λ completed row,
    for_each (λ completed column,
      solved ← is_solved G row column;
      Ok (if negb solved then false else completed))
      (range 0 9) completed)
    (range 0 9) true.

Definition get_possibilities (G : grid) (row column : Z) : result (list Z) :=
  c ← get_number G row column;
  if bool_decide (0 < c) then Ok [c]
  else
    current_row ← Np.item G row;
    current_column ← Np.column G column;
    let x := row `div` 3 * 3 in
    let y := column `div` 3 * 3 in
    let current_square := Np.slice2 G x (x + 3) y (y + 3) in
    Ok (List.filter
          (λ i, negb (Np.contains i current_row)
                && negb (Np.contains i current_column)
                && negb (Np.contains2 i current_square))
          (range 1 10)).

Definition find_most_constrained (G : grid) : result (Z * Z) :=
  st ← for_each (λ st row,
          for_each (λ st column,
            let '(lowest, field) := st in
            solved ← is_solved G row column;
            if negb solved then
              possibilities ← get_possibilities G row column;
              let count := Z.of_nat (length possibilities) in
              if bool_decide (count < lowest)
              then Ok (count, (row, column))
              else Ok (lowest, field)
            else Ok (lowest, field))
            (range 0 9) st)
          (range 0 9) (10, (-1, -1));
  Ok st.2.

(** The body of the [for possibility in possibilities] loop of [solve]: the
    live array is written in place and a copy of it joins the queue. *)
Definition try_all (row column : Z) (possibilities : list Z)
    (G : grid) (queue : list Np.ndarray) : result (grid * list Np.ndarray) :=
  for_each (λ st possibility,
    let '(G, queue) := st in
    G' ← set_number G row column possibility;
    Ok (G', queue ++ [get_grid G']))
    possibilities (G, queue).

(** One turn of the [while] loop of [solve]; [deque.popleft] raises
    [IndexError] on an empty deque.  The result carries the new values of
    [self.__G], [queue], [completed] and [abort]. *)
Definition solve_turn (G : grid) (queue : list Np.ndarray) (abort : bool)
  : result (grid * list Np.ndarray * bool * bool) :=
  '(row, column) ← find_most_constrained G;
  possibilities ← get_possibilities G row column;
  '(G, queue) ← try_all row column possibilities G queue;
  match queue with
  | [] => Raise IndexError
  | front :: queue =>
      let G := set_grid G front in
      completed ← is_completed G;
      Ok (G, queue, completed,
          if bool_decide (length queue = 0%nat) then true else abort)
  end.

(** The [while (not completed) & (not abort)] loop.  [None] means that
    [fuel] turns were not enough to leave the loop. *)
Fixpoint solve_while (fuel : nat) (G : grid) (queue : list Np.ndarray)
    (completed abort : bool) : option (result grid) :=
  if negb completed && negb abort then
    match fuel with
    | O => None
    | S fuel' =>
        match solve_turn G queue abort with
        | Ok (G', queue', completed', abort') =>
            solve_while fuel' G' queue' completed' abort'
        | Raise e => Some (Raise e)
        end
    end
  else Some (Ok G).

(** [solve] returns nothing; its effect is the final [self.__G]. *)
Definition solve (fuel : nat) (G : grid) : option (result grid) :=
  let queue := [] ++ [get_grid G] in
  match is_completed G with
  | Ok completed => solve_while fuel G queue completed false
  | Raise e => Some (Raise e)
  end.

Definition newline : string := String (Ascii.ascii_of_nat 10) "".

Definition to_string (G : grid) : result string :=
  rows ← for_each (λ rows row,
    let rows :=
      if bool_decide (row `mod` 3 = 0) && bool_decide (0 < row)
      then rows ++ ["---+---+---"%string] else rows in
    the_row ← for_each (λ the_row column,
      let the_row :=
        if bool_decide (column `mod` 3 = 0) && bool_decide (0 < column)
        then the_row ++ ["|"%string] else the_row in
      n ← get_number G row column;
      Ok (the_row ++ [if bool_decide (0 < n) then pretty n else "?"%string]))
      (range 0 9) [];
    Ok (rows ++ [String.concat "" the_row]))
    (range 0 9) [];
  Ok (String.concat newline rows).

(** ** The class invariant and the vocabulary of the specification *)

(** The array is 9x9 and holds int8 values: true of [Grid()] and kept by
    every method. *)
Definition wf_grid (G : grid) : Prop :=
  length G = 9%nat ∧ Forall (λ line, length line = 9%nat ∧ Forall Np.int8 line) G.

(** The data model of the specification: every cell is 0 (unassigned) or a
    digit 1..9. *)
Definition in_domain (G : grid) : Prop :=
  Forall (Forall (λ v, 0 ≤ v ≤ 9)) G.

(** A coordinate in [0, 9). *)
Definition coord (i : Z) : Prop := 0 ≤ i < 9.

(** An integer that fits the signed 64-bit index type of NumPy.  The model
    of indexing speaks for such integers only: a larger one makes NumPy fail
    with [OverflowError] before it looks at the axis. *)
Definition index_sized (i : Z) : Prop := - 2 ^ 63 ≤ i < 2 ^ 63.

(** The digit [d] occurs in row [row], in column [column], in the 3x3 box
    that contains [(row, column)]. *)
Definition in_row (G : grid) (row d : Z) : Prop :=
  ∃ c, coord c ∧ get_number G row c = Ok d.

Definition in_column (G : grid) (column d : Z) : Prop :=
  ∃ r, coord r ∧ get_number G r column = Ok d.

Definition in_box (G : grid) (row column d : Z) : Prop :=
  ∃ r c, row `div` 3 * 3 ≤ r < row `div` 3 * 3 + 3 ∧
         column `div` 3 * 3 ≤ c < column `div` 3 * 3 + 3 ∧
         get_number G r c = Ok d.

(** Row-major scan order on cells: smaller row first, then smaller column. *)
Definition scanned_before (p q : Z * Z) : Prop :=
  p.1 < q.1 ∨ (p.1 = q.1 ∧ p.2 < q.2).

(** ** The procedure of the specification, section 4

    Written from the words of the specification, to be compared with the
    methods above: a grid is a matrix of cells read and written by
    coordinate, and the frontier is a FIFO queue of grids. *)

Module Spec.

Definition cell (G : grid) (row column : Z) : Z :=
  default 0 (G !! Z.to_nat row ≫= (.!! Z.to_nat column)).

Definition set (G : grid) (row column value : Z) : grid :=
  alter (<[Z.to_nat column := value]>) (Z.to_nat row) G.

(** All 81 cells in row-major order. *)
Definition cells : list (Z * Z) :=
  r ← range 0 9; c ← range 0 9; [(r, c)].

Definition assigned (G : grid) (p : Z * Z) : bool :=
  bool_decide (0 < cell G p.1 p.2).

Definition completed (G : grid) : bool := forallb (assigned G) cells.

Definition row_values (G : grid) (row : Z) : list Z :=
  cell G row <$> range 0 9.

Definition column_values (G : grid) (column : Z) : list Z :=
  (λ r, cell G r column) <$> range 0 9.

Definition box_values (G : grid) (row column : Z) : list Z :=
  let x := row `div` 3 * 3 in
  let y := column `div` 3 * 3 in
  r ← range x (x + 3); c ← range y (y + 3); [cell G r c].

(** {1,...,9} minus the values of the row, the column and the box, in
    ascending order; an assigned cell has its own value as only candidate. *)
Definition candidates (G : grid) (row column : Z) : list Z :=
  if assigned G (row, column) then [cell G row column]
  else
    List.filter
      (λ d, negb (bool_decide (d ∈ row_values G row
                               ∨ d ∈ column_values G column
                               ∨ d ∈ box_values G row column)))
      (range 1 10).

Definition count (G : grid) (p : Z * Z) : nat :=
  length (candidates G p.1 p.2).

(** The first cell of [l] with the fewest candidates. *)
Definition fewest (G : grid) (first : Z * Z) (l : list (Z * Z)) : Z * Z :=
  foldl (λ best p, if bool_decide (count G p < count G best)%nat
                   then p else best) first l.

(** Among the unassigned cells the one with the fewest candidates, the
    first in scan order on a tie; the sentinel when every cell is
    assigned. *)
Definition most_constrained (G : grid) : Z * Z :=
  match List.filter (λ p, negb (assigned G p)) cells with
  | [] => (-1, -1)
  | first :: l => fewest G first l
  end.

(** Step 2c: each candidate in turn is set into the live grid and a
    snapshot of the result joins the back of the frontier. *)
Definition branch (row column : Z) (values : list Z)
    (G : grid) (frontier : list grid) : grid * list grid :=
  foldl (λ st v,
           let '(G, frontier) := st in
           let G' := set G row column v in (G', frontier ++ [G']))
        (G, frontier) values.

Inductive outcome : Type := Completed | Exhausted.

Record final : Type := Final {
  live : grid;                  (* the grid when the procedure ends *)
  how : outcome;
  last_popped : option grid     (* the snapshot of the last step 2d *)
}.

(** Step 2, one round per unit of [fuel]; step 3 when the loop ends. *)
Fixpoint loop (fuel : nat) (G : grid) (frontier : list grid)
    (popped : option grid) : option final :=
  if completed G then Some (Final G Completed popped)
  else if bool_decide (frontier = []) then Some (Final G Exhausted popped)
  else
    match fuel with
    | O => None
    | S fuel' =>
        let '(row, column) := most_constrained G in
        let values := candidates G row column in
        let '(_, frontier) := branch row column values G frontier in
        match frontier with
        | front :: frontier' => loop fuel' front frontier' (Some front)
        | [] => None
        end
    end.

(** Step 1: the frontier starts with one snapshot, the current grid. *)
Definition solve (fuel : nat) (G : grid) : option final :=
  loop fuel G [G] None.

End Spec.

(** ** Auxiliary definitions for the proofs *)

(** The state change of one cell visit in [find_most_constrained]. *)
Definition scan_step (G : grid) (st : Z * (Z * Z)) (p : Z * Z) : Z * (Z * Z) :=
  if negb (Spec.assigned G p) then
    if bool_decide (Z.of_nat (Spec.count G p) < st.1)
    then (Z.of_nat (Spec.count G p), p) else st
  else st.

(** The unassigned cells in scan order, and how many they are. *)
Definition unassigned_cells (G : grid) : list (Z * Z) :=
  List.filter (λ p, negb (Spec.assigned G p)) Spec.cells.

Definition unassigned_count (G : grid) : nat := length (unassigned_cells G).

#[global] Instance scanned_before_dec : RelDecision scanned_before.
Proof. intros p q. unfold scanned_before. apply _. Defined.

(** The snapshots one round of the search pushes: the live grid with each
    candidate of its most-constrained cell. *)
Definition children (G : grid) : list grid :=
  let p := Spec.most_constrained G in
  (λ v, Spec.set G p.1 p.2 v) <$> Spec.candidates G p.1 p.2.

(** The number of nodes of the full 9-ary tree of depth [u]: a bound on the
    snapshots that descend from a grid with [u] unassigned cells, itself
    included. *)
Fixpoint tree_size (u : nat) : nat :=
  match u with
  | O => 1
  | S u' => 1 + 9 * tree_size u'
  end.

(** The rounds still to come: the descendants of the live grid that are not
    pushed yet, and every queued snapshot with its descendants. *)
Definition rounds_bound (G : grid) (frontier : list grid) : nat :=
  (tree_size (unassigned_count G) - 1)
  + sum_list_with (λ Q, tree_size (unassigned_count Q)) frontier.

(** [X] keeps every number assigned in [G0]. *)
Definition extends (G0 X : grid) : Prop :=
  ∀ r c, coord r → coord c → 0 < Spec.cell G0 r c →
         Spec.cell X r c = Spec.cell G0 r c.

#[global] Instance int8_dec v : Decision (Np.int8 v).
Proof. unfold Np.int8. apply _. Defined.

#[global] Instance wf_grid_dec G : Decision (wf_grid G).
Proof. unfold wf_grid. apply _. Defined.

#[global] Instance in_domain_dec G : Decision (in_domain G).
Proof. unfold in_domain. apply _. Defined.

(** ** Sample grids *)

(** The puzzle [foo] of the program's entry point. *)
Definition foo : grid :=
  [ [0; 0; 0; 0; 0; 0; 0; 1; 0];
    [4; 0; 0; 0; 0; 0; 0; 0; 0];
    [0; 2; 0; 0; 0; 0; 0; 0; 0];
    [0; 0; 0; 0; 5; 0; 4; 0; 7];
    [0; 0; 8; 0; 0; 0; 3; 0; 0];
    [0; 0; 1; 0; 9; 0; 0; 0; 0];
    [3; 0; 0; 4; 0; 0; 2; 0; 0];
    [0; 5; 0; 1; 0; 0; 0; 0; 0];
    [0; 0; 0; 8; 0; 6; 0; 0; 0] ].

(** A solved grid with the last three cells erased. *)
Definition nearly_done : grid :=
  [ [5; 3; 4; 6; 7; 8; 9; 1; 2];
    [6; 7; 2; 1; 9; 5; 3; 4; 8];
    [1; 9; 8; 3; 4; 2; 5; 6; 7];
    [8; 5; 9; 7; 6; 1; 4; 2; 3];
    [4; 2; 6; 8; 5; 3; 7; 9; 1];
    [7; 1; 3; 9; 2; 4; 8; 5; 6];
    [9; 6; 1; 5; 3; 7; 2; 8; 4];
    [2; 8; 7; 4; 1; 9; 6; 3; 5];
    [3; 4; 5; 2; 8; 6; 0; 0; 0] ].

(** Cell (0, 0) has no candidate: its row holds 1..8 and its column 9. *)
Definition dead_end : grid :=
  [ [0; 1; 2; 3; 4; 5; 6; 7; 8];
    [9; 0; 0; 0; 0; 0; 0; 0; 0];
    [0; 0; 0; 0; 0; 0; 0; 0; 0];
    [0; 0; 0; 0; 0; 0; 0; 0; 0];
    [0; 0; 0; 0; 0; 0; 0; 0; 0];
    [0; 0; 0; 0; 0; 0; 0; 0; 0];
    [0; 0; 0; 0; 0; 0; 0; 0; 0];
    [0; 0; 0; 0; 0; 0; 0; 0; 0];
    [0; 0; 0; 0; 0; 0; 0; 0; 0] ].

(** ** Sudoku validity *)

(** Two cells share a row, a column or a 3x3 box. *)
Definition same_unit (r1 c1 r2 c2 : Z) : Prop :=
  r1 = r2 ∨ c1 = c2 ∨ (r1 `div` 3 = r2 `div` 3 ∧ c1 `div` 3 = c2 `div` 3).

#[global] Instance same_unit_dec r1 c1 r2 c2 : Decision (same_unit r1 c1 r2 c2).
Proof. unfold same_unit. apply _. Defined.

(** No number is assigned twice in a row, a column or a box. *)
Definition no_conflict (G : grid) : Prop :=
  ∀ r1 c1 r2 c2 v,
    coord r1 → coord c1 → coord r2 → coord c2 →
    (r1, c1) ≠ (r2, c2) → same_unit r1 c1 r2 c2 →
    get_number G r1 c1 = Ok v → 0 < v → get_number G r2 c2 ≠ Ok v.

(** [G'] holds every number assigned in [G]. *)
Definition keeps (G G' : grid) : Prop :=
  ∀ r c v, coord r → coord c →
    get_number G r c = Ok v → 0 < v → get_number G' r c = Ok v.

(** A filled grid that obeys the rules of Sudoku. *)
Definition solution (S : grid) : Prop :=
  wf_grid S ∧ no_conflict S
  ∧ ∀ r c, coord r → coord c → ∃ v, get_number S r c = Ok v ∧ 1 ≤ v ≤ 9.

(** The checks behind [no_conflict] and [solution], as computations. *)
Definition no_conflictb (G : grid) : bool :=
  forallb (λ p, forallb (λ q,
    bool_decide (p = q)
    || negb (bool_decide (same_unit p.1 p.2 q.1 q.2))
    || negb (bool_decide (0 < Spec.cell G p.1 p.2))
    || negb (bool_decide (Spec.cell G q.1 q.2 = Spec.cell G p.1 p.2)))
    Spec.cells) Spec.cells.

Definition solutionb (S : grid) : bool :=
  bool_decide (wf_grid S) && no_conflictb S
  && forallb (λ p, bool_decide (1 ≤ Spec.cell S p.1 p.2 ≤ 9)) Spec.cells.

(** At two places of the list [T] stands a grid that [S] extends. *)
Definition covered_twice (S : grid) (T : list grid) : Prop :=
  ∃ i j X Y, (i < j)%nat ∧ T !! i = Some X ∧ T !! j = Some Y
             ∧ extends X S ∧ extends Y S.

(** The solved grid behind [nearly_done]. *)
Definition all_done : grid :=
  [ [5; 3; 4; 6; 7; 8; 9; 1; 2];
    [6; 7; 2; 1; 9; 5; 3; 4; 8];
    [1; 9; 8; 3; 4; 2; 5; 6; 7];
    [8; 5; 9; 7; 6; 1; 4; 2; 3];
    [4; 2; 6; 8; 5; 3; 7; 9; 1];
    [7; 1; 3; 9; 2; 4; 8; 5; 6];
    [9; 6; 1; 5; 3; 7; 2; 8; 4];
    [2; 8; 7; 4; 1; 9; 6; 3; 5];
    [3; 4; 5; 2; 8; 6; 1; 7; 9] ].

Definition keepsb (G G' : grid) : bool :=
  forallb (λ p, negb (bool_decide (0 < Spec.cell G p.1 p.2))
                || bool_decide (Spec.cell G' p.1 p.2 = Spec.cell G p.1 p.2))
          Spec.cells.

(** ** Rendering, line by line *)

(** A cell as [to_string] shows it. *)
Definition show_cell (n : Z) : string :=
  if bool_decide (0 < n) then pretty n else "?"%string.

(** A row: three groups of three cells with a bar between groups. *)
Definition show_row (line : list Z) : string :=
  match line with
  | [a; b; c; d; e; f; g; h; i] =>
      String.concat ""
        [show_cell a; show_cell b; show_cell c; "|"%string;
         show_cell d; show_cell e; show_cell f; "|"%string;
         show_cell g; show_cell h; show_cell i]
  | _ => ""%string
  end.

(** Whether the character [ch] occurs in [s]. *)
Fixpoint has_char (ch : Ascii.ascii) (s : string) : bool :=
  match s with
  | EmptyString => false
  | String x s' => bool_decide (x = ch) || has_char ch s'
  end.

(** The character [?]. *)
Definition question_mark : Ascii.ascii := Ascii.ascii_of_nat 63.

(** ** The command loop of the entry point

    One pass through the body of [while not stop], from the point where the
    line read is already split into words.  What is printed is collected as
    a list of lines.  Python's [int] is a parameter: [None] stands for
    [ValueError], which the program catches. *)

Section Repl.

Variable int : string → option Z.

(** [print()], [print(str(grid))], [print()] *)
Definition print_grid (G : grid) : result (list string) :=
  s ← to_string G; Ok [""; s; ""]%string.

(** [np.array(foo)] *)
Definition foo_array : Np.ndarray := Np.Nd [9; 9] (mjoin foo).

Definition command (fuel : nat) (G : grid) (stop : bool)
    (split_input : list string)
  : option (result (grid * bool * list string)) :=
  match split_input with
  | [] => Some (Ok (G, stop, []))
  | command :: args =>
      if bool_decide (command = "set"%string) then
        match args with
        | [a1; a2; a3] =>
            match int a1, int a2, int a3 with
            | Some row, Some column, Some value =>
                if bool_decide (1 ≤ row) && bool_decide (row ≤ 9)
                   && bool_decide (1 ≤ column) && bool_decide (column ≤ 9)
                   && bool_decide (1 ≤ value) && bool_decide (value ≤ 9)
                then
                  Some (G' ← set_number G (row - 1) (column - 1) value;
                        out ← print_grid G';
                        Ok (G', stop, out))
                else
                  Some (Ok (G, stop,
                    ["Error: All arguments must be numbers between 1 and 9."
                    ]%string))
            | _, _, _ =>
                Some (Ok (G, stop, ["Error: Illegal argument."]%string))
            end
        | _ =>
            Some (Ok (G, stop,
              ["Error: Command 'set' takes exactly 3 arguments."]%string))
        end
      else if bool_decide (command = "unset"%string) then
        match args with
        | [a1; a2] =>
            match int a1, int a2 with
            | Some row, Some column =>
                if bool_decide (1 ≤ row) && bool_decide (row ≤ 9)
                   && bool_decide (1 ≤ column) && bool_decide (column ≤ 9)
                then
                  Some (G' ← set_number G (row - 1) (column - 1) 0;
                        out ← print_grid G';
                        Ok (G', stop, out))
                else
                  Some (Ok (G, stop,
                    ["Error: All arguments must be numbers between 1 and 9."
                    ]%string))
            | _, _ =>
                Some (Ok (G, stop, ["Error: Illegal argument."]%string))
            end
        | _ =>
            Some (Ok (G, stop,
              ["Error: Command 'unset' takes exactly 2 arguments."]%string))
        end
      else if bool_decide (command = "clear"%string) then
        match args with
        | [] =>
            Some (G' ← clear G; out ← print_grid G'; Ok (G', stop, out))
        | _ =>
            Some (Ok (G, stop,
              ["Error: Command 'clear' does not take arguments."]%string))
        end
      else if bool_decide (command = "foo"%string) then
        match args with
        | [] =>
            let G' := set_grid G foo_array in
            Some (out ← print_grid G'; Ok (G', stop, out))
        | _ =>
            Some (Ok (G, stop,
              ["Error: Command 'foo' does not take arguments."]%string))
        end
      else if bool_decide (command = "solve"%string) then
        match args with
        | [] =>
            match solve fuel G with
            | Some (Ok G') =>
                Some (out ← print_grid G'; Ok (G', stop, out))
            | Some (Raise e) => Some (Raise e)
            | None => None
            end
        | _ =>
            Some (Ok (G, stop,
              ["Error: Command 'solve' does not take arguments."]%string))
        end
      else if bool_decide (command = "exit"%string) then
        match args with
        | [] => Some (Ok (G, true, []))
        | _ =>
            Some (Ok (G, stop,
              ["Error: Command 'exit' does not take arguments."]%string))
        end
      else Some (Ok (G, stop, ["Error: Unknown command"]%string))
  end.

End Repl.

(** A stand-in for [int] on the words the examples use: one decimal
    digit. *)
Definition int_of_digit (s : string) : option Z :=
  match s with
  | String ch EmptyString =>
      let n := Z.of_nat (Ascii.nat_of_ascii ch) in
      if bool_decide (48 ≤ n ≤ 57) then Some (n - 48) else None
  | _ => None
  end.

(** * Verification *)

(** ** Indexing *)

Lemma norm_index_coord n i : 0 ≤ i < n → Np.norm_index n i = Ok i.
Proof. intros H. unfold Np.norm_index. by rewrite bool_decide_eq_true_2. Qed.

Lemma norm_index_negative n i : - n ≤ i < 0 → Np.norm_index n i = Ok (i + n).
Proof.
  intros H. unfold Np.norm_index.
  rewrite bool_decide_eq_false_2 by lia. by rewrite bool_decide_eq_true_2.
Qed.

Lemma norm_index_outside n i :
  i < - n ∨ n ≤ i → 0 ≤ n → Np.norm_index n i = Raise IndexError.
Proof.
  intros H Hn. unfold Np.norm_index.
  by rewrite !bool_decide_eq_false_2 by lia.
Qed.

Lemma item_coord {A} (a : list A) i x :
  a !! Z.to_nat i = Some x → 0 ≤ i → Np.item a i = Ok x.
Proof.
  intros Hx Hi. unfold Np.item.
  rewrite norm_index_coord; [simpl; by rewrite Hx|].
  apply lookup_lt_Some in Hx. lia.
Qed.

Lemma item_negative {A} (a : list A) i :
  - Z.of_nat (length a) ≤ i < 0 → Np.item a i = Np.item a (i + Z.of_nat (length a)).
Proof.
  intros Hi. unfold Np.item.
  rewrite norm_index_negative by done. by rewrite norm_index_coord by lia.
Qed.

Lemma item_outside {A} (a : list A) i :
  i < - Z.of_nat (length a) ∨ Z.of_nat (length a) ≤ i →
  Np.item a i = Raise IndexError.
Proof.
  intros Hi. unfold Np.item. by rewrite norm_index_outside by lia.
Qed.

Lemma set_item_coord {A} (a : list A) i x :
  0 ≤ i < Z.of_nat (length a) → Np.set_item a i x = Ok (<[Z.to_nat i := x]> a).
Proof. intros Hi. unfold Np.set_item. by rewrite norm_index_coord. Qed.

Lemma set_item_outside {A} (a : list A) i x :
  i < - Z.of_nat (length a) ∨ Z.of_nat (length a) ≤ i →
  Np.set_item a i x = Raise IndexError.
Proof.
  intros Hi. unfold Np.set_item. by rewrite norm_index_outside by lia.
Qed.

Lemma wrap8_int8 v : Np.int8 v → Np.wrap8 v = v.
Proof. unfold Np.int8, Np.wrap8. intros H. rewrite Z.mod_small; lia. Qed.

Lemma int8_wrap8 v : Np.int8 (Np.wrap8 v).
Proof.
  unfold Np.int8, Np.wrap8.
  pose proof (Z.mod_pos_bound (v + 128) 256). lia.
Qed.

(** ** Consequences of the class invariant *)

Lemma wf_grid_line G r :
  wf_grid G → coord r →
  ∃ line, G !! Z.to_nat r = Some line ∧ length line = 9%nat ∧ Forall Np.int8 line.
Proof.
  intros [Hlen Hall] Hr.
  destruct (lookup_lt_is_Some_2 G (Z.to_nat r)) as [line Hline].
  { unfold coord in Hr. lia. }
  exists line. split; [done|].
  by apply (Forall_lookup_1 _ _ _ _ Hall Hline).
Qed.

Lemma wf_grid_cell G r c :
  wf_grid G → coord r → coord c →
  ∃ line v, G !! Z.to_nat r = Some line ∧ length line = 9%nat
            ∧ line !! Z.to_nat c = Some v ∧ Np.int8 v.
Proof.
  intros HG Hr Hc.
  destruct (wf_grid_line G r HG Hr) as (line & Hline & Hlen & Hall).
  destruct (lookup_lt_is_Some_2 line (Z.to_nat c)) as [v Hv].
  { unfold coord in Hc. lia. }
  exists line, v. split_and!; [done..|].
  by apply (Forall_lookup_1 _ _ _ _ Hall Hv).
Qed.

Lemma item_row G r :
  wf_grid G → coord r →
  ∃ line, Np.item G r = Ok line ∧ G !! Z.to_nat r = Some line
          ∧ length line = 9%nat.
Proof.
  intros HG Hr. destruct (wf_grid_line G r HG Hr) as (line & Hline & Hlen & _).
  exists line. split; [|done]. apply item_coord; [done|]. unfold coord in Hr; lia.
Qed.

Lemma get_number_cell G r c :
  wf_grid G → coord r → coord c → get_number G r c = Ok (Spec.cell G r c).
Proof.
  intros HG Hr Hc.
  destruct (wf_grid_cell G r c HG Hr Hc) as (line & v & Hline & Hlen & Hv & _).
  unfold get_number, Np.item2, Spec.cell.
  rewrite (item_coord G r line) by (done || unfold coord in Hr; lia). simpl.
  rewrite (item_coord line c v) by (done || unfold coord in Hc; lia).
  by rewrite Hline; simpl; rewrite Hv.
Qed.

Lemma cell_int8 G r c :
  wf_grid G → coord r → coord c → Np.int8 (Spec.cell G r c).
Proof.
  intros HG Hr Hc.
  destruct (wf_grid_cell G r c HG Hr Hc) as (line & v & Hline & Hlen & Hv & H8).
  unfold Spec.cell. by rewrite Hline; simpl; rewrite Hv.
Qed.

Lemma is_solved_assigned G r c :
  wf_grid G → coord r → coord c →
  is_solved G r c = Ok (Spec.assigned G (r, c)).
Proof.
  intros HG Hr Hc. unfold is_solved.
  pose proof (get_number_cell G r c HG Hr Hc) as Hget.
  unfold get_number in Hget. by rewrite Hget.
Qed.

Lemma wf_grid_set G r c v :
  wf_grid G → Np.int8 v → wf_grid (Spec.set G r c v).
Proof.
  intros [Hlen Hall] Hv. unfold Spec.set. split.
  - by rewrite length_alter.
  - apply Forall_alter; [done|].
    intros line _ [Hl H8]. split; [by rewrite length_insert|].
    by apply Forall_insert.
Qed.

Lemma set_number_set G r c v :
  wf_grid G → coord r → coord c →
  set_number G r c v = Ok (Spec.set G r c (Np.wrap8 v)).
Proof.
  intros HG Hr Hc.
  destruct (wf_grid_line G r HG Hr) as (line & Hline & Hlen & _).
  unfold set_number, Np.set_item2.
  rewrite (item_coord G r line) by (done || unfold coord in Hr; lia). simpl.
  rewrite set_item_coord by (unfold coord in Hc; lia). simpl.
  rewrite set_item_coord by (destruct HG; unfold coord in Hr; lia).
  f_equal. unfold Spec.set.
  apply list_eq. intros i. destruct (decide (i = Z.to_nat r)) as [->|Hne].
  - rewrite list_lookup_insert_eq by (apply lookup_lt_Some in Hline; lia).
    by rewrite list_lookup_alter_eq, Hline.
  - rewrite list_lookup_insert_ne by done. by rewrite list_lookup_alter_ne.
Qed.

Lemma cell_set_eq G r c v :
  wf_grid G → coord r → coord c → Spec.cell (Spec.set G r c v) r c = v.
Proof.
  intros HG Hr Hc.
  destruct (wf_grid_line G r HG Hr) as (line & Hline & Hlen & _).
  unfold Spec.cell, Spec.set. rewrite list_lookup_alter_eq, Hline. simpl.
  rewrite list_lookup_insert_eq; [done|]. unfold coord in Hc. lia.
Qed.

Lemma cell_set_ne G r c v r' c' :
  0 ≤ r → 0 ≤ c → 0 ≤ r' → 0 ≤ c' → (r', c') ≠ (r, c) →
  Spec.cell (Spec.set G r c v) r' c' = Spec.cell G r' c'.
Proof.
  intros Hr Hc Hr' Hc' Hne. unfold Spec.cell, Spec.set.
  destruct (decide (Z.to_nat r' = Z.to_nat r)) as [Heq|Hneq].
  - rewrite Heq, list_lookup_alter_eq. destruct (G !! Z.to_nat r) as [line|]; [|done].
    simpl. rewrite list_lookup_insert_ne; [done|].
    intros Hcc. apply Hne. f_equal; lia.
  - by rewrite list_lookup_alter_ne.
Qed.

Lemma set_set G r c v w : Spec.set (Spec.set G r c v) r c w = Spec.set G r c w.
Proof.
  unfold Spec.set. rewrite list_alter_alter_eq. apply list_alter_ext; [|done].
  intros line _. simpl. by rewrite list_insert_insert_eq.
Qed.

(** ** Loops *)

Lemma for_each_app {A S} (body : S → A → result S) l1 l2 s :
  for_each body (l1 ++ l2) s = s' ← for_each body l1 s; for_each body l2 s'.
Proof.
  revert s. induction l1 as [|a l1 IH]; intros s; simpl; [done|].
  destruct (body s a) as [s'|e]; simpl; [apply IH|done].
Qed.

Lemma for_each_pure {A S} (body : S → A → result S) (f : S → A → S) l s :
  (∀ s a, a ∈ l → body s a = Ok (f s a)) →
  for_each body l s = Ok (foldl f s l).
Proof.
  revert s. induction l as [|a l IH]; intros s Hbody; simpl; [done|].
  rewrite Hbody by left. simpl. apply IH.
  intros s' a' Ha'. apply Hbody. by right.
Qed.

(** Two nested loops are one loop over the pairs. *)
Lemma for_each_nested {A B S} (body : S → A * B → result S) la lb s :
  for_each (λ s a, for_each (λ s b, body s (a, b)) lb s) la s
  = for_each body (a ← la; b ← lb; [(a, b)]) s.
Proof.
  revert s. induction la as [|a la IH]; intros s; simpl; [done|].
  rewrite for_each_app.
  assert (∀ l s, for_each (λ s b, body s (a, b)) l s
                 = for_each body (l ≫= λ b, [(a, b)]) s) as ->.
  { intros l. induction l as [|b l IHl]; intros s0; simpl; [done|].
    destruct (body s0 (a, b)); simpl; [apply IHl|done]. }
  destruct (for_each body _ s); simpl; [apply IH|done].
Qed.

Lemma elem_of_range lo hi i : i ∈ range lo hi ↔ lo ≤ i < hi.
Proof. unfold range. rewrite elem_of_seqZ. lia. Qed.

Lemma elem_of_cells r c : (r, c) ∈ Spec.cells ↔ coord r ∧ coord c.
Proof.
  unfold Spec.cells, coord. rewrite list_elem_of_bind. split.
  - intros (r' & Hin & Hr'). apply list_elem_of_bind in Hin as (c' & Hin & Hc').
    apply list_elem_of_singleton in Hin. inversion Hin; subst.
    apply elem_of_range in Hr', Hc'. lia.
  - intros [Hr Hc]. exists r. split; [|by apply elem_of_range].
    apply list_elem_of_bind. exists c. split; [by left|by apply elem_of_range].
Qed.

Lemma contains_elem_of i a : Np.contains i a = bool_decide (i ∈ a).
Proof.
  unfold Np.contains. induction a as [|x a IH]; simpl; [done|].
  rewrite IH. destruct (Z.eqb_spec i x) as [->|Hne]; simpl.
  - symmetry. apply bool_decide_eq_true_2. by left.
  - apply bool_decide_ext. rewrite elem_of_cons. tauto.
Qed.

Lemma contains2_elem_of i a : Np.contains2 i a = bool_decide (i ∈ mjoin a).
Proof.
  unfold Np.contains2. induction a as [|l a IH]; simpl; [done|].
  rewrite IH, contains_elem_of.
  destruct (decide (i ∈ l)) as [Hin|Hnin].
  - rewrite (bool_decide_eq_true_2 (i ∈ l)) by done. simpl. symmetry.
    apply bool_decide_eq_true_2, elem_of_app. by left.
  - rewrite (bool_decide_eq_false_2 (i ∈ l)) by done. simpl.
    apply bool_decide_ext. rewrite elem_of_app. tauto.
Qed.

(** ** [is_completed] *)

Lemma foldl_all {A} (f : A → bool) l b :
  foldl (λ completed a, if negb (f a) then false else completed) b l
  = b && forallb f l.
Proof.
  revert b. induction l as [|a l IH]; intros b; simpl.
  - by rewrite andb_true_r.
  - rewrite IH. destruct (f a), b; simpl; try done.
Qed.

Lemma is_completed_spec G : wf_grid G → is_completed G = Ok (Spec.completed G).
Proof.
  intros HG. unfold is_completed.
  rewrite (for_each_nested
    (λ completed p, solved ← is_solved G p.1 p.2;
                    Ok (if negb solved then false else completed))).
  fold Spec.cells.
  rewrite (for_each_pure _
    (λ completed p, if negb (Spec.assigned G p) then false else completed)).
  - by rewrite foldl_all.
  - intros b [r c] Hin. apply elem_of_cells in Hin as [Hr Hc]. simpl.
    by rewrite is_solved_assigned.
Qed.

Lemma completed_assigned G :
  Spec.completed G = true ↔ ∀ r c, coord r → coord c → 0 < Spec.cell G r c.
Proof.
  unfold Spec.completed. rewrite forallb_forall. split.
  - intros H r c Hr Hc.
    assert (Spec.assigned G (r, c) = true) as Ha.
    { apply H, list_elem_of_In, elem_of_cells. done. }
    unfold Spec.assigned in Ha. by apply bool_decide_eq_true_1 in Ha.
  - intros H [r c] Hin. apply list_elem_of_In, elem_of_cells in Hin as [Hr Hc].
    apply bool_decide_eq_true_2. by apply H.
Qed.

(** ** The row, the column and the box of a cell *)

(** A list of known length is a list of that many variables. *)
Ltac explode_list l H :=
  do 9 (destruct l as [|? l]; [discriminate H|]);
  destruct l; [clear H|discriminate H].

Ltac explode_rows H :=
  repeat match type of H with
  | Forall _ (?l :: _) =>
      let Hl := fresh "Hl" in let H8 := fresh "H8" in
      apply Forall_cons in H as [[Hl H8] H];
      explode_list l Hl; clear H8
  end.

Lemma coord_cases i : coord i →
  i = 0 ∨ i = 1 ∨ i = 2 ∨ i = 3 ∨ i = 4 ∨ i = 5 ∨ i = 6 ∨ i = 7 ∨ i = 8.
Proof. unfold coord. lia. Qed.

Ltac case_coord H :=
  apply coord_cases in H;
  destruct H as [->|[->|[->|[->|[->|[->|[->|[->| ->]]]]]]]].

Lemma views_spec G r c :
  wf_grid G → coord r → coord c →
  Np.item G r = Ok (Spec.row_values G r)
  ∧ Np.column G c = Ok (Spec.column_values G c)
  ∧ mjoin (Np.slice2 G (r `div` 3 * 3) (r `div` 3 * 3 + 3)
                       (c `div` 3 * 3) (c `div` 3 * 3 + 3))
    = Spec.box_values G r c.
Proof.
  intros [Hlen Hall] Hr Hc.
  explode_list G Hlen. explode_rows Hall. clear Hall.
  case_coord Hr; case_coord Hc; split_and!; reflexivity.
Qed.

(** ** [get_possibilities] *)

Lemma bind_Ok {A B} (a : A) (f : A → result B) : (Ok a ≫= f) = f a.
Proof. done. Qed.

Lemma get_possibilities_spec G r c :
  wf_grid G → coord r → coord c →
  get_possibilities G r c = Ok (Spec.candidates G r c).
Proof.
  intros HG Hr Hc.
  destruct (views_spec G r c HG Hr Hc) as (Hrow & Hcol & Hbox).
  unfold get_possibilities, Spec.candidates, Spec.assigned.
  rewrite get_number_cell, bind_Ok by done. cbn [fst snd].
  case_bool_decide; [done|].
  rewrite Hrow, Hcol, !bind_Ok. f_equal.
  apply List.filter_ext. intros d.
  rewrite !contains_elem_of, contains2_elem_of, Hbox.
  repeat case_bool_decide; simpl; try done; tauto.
Qed.

Lemma candidates_assigned G r c :
  0 < Spec.cell G r c → Spec.candidates G r c = [Spec.cell G r c].
Proof.
  intros H. unfold Spec.candidates, Spec.assigned. simpl.
  by rewrite bool_decide_eq_true_2.
Qed.

Lemma candidates_unassigned G r c :
  ¬ 0 < Spec.cell G r c →
  Spec.candidates G r c
  = List.filter
      (λ d, negb (bool_decide (d ∈ Spec.row_values G r
                               ∨ d ∈ Spec.column_values G c
                               ∨ d ∈ Spec.box_values G r c)))
      (range 1 10).
Proof.
  intros H. unfold Spec.candidates, Spec.assigned. simpl.
  by rewrite bool_decide_eq_false_2.
Qed.

Lemma elem_of_candidates G r c d :
  ¬ 0 < Spec.cell G r c →
  d ∈ Spec.candidates G r c ↔
    1 ≤ d ≤ 9 ∧ (d ∉ Spec.row_values G r) ∧ (d ∉ Spec.column_values G c)
    ∧ (d ∉ Spec.box_values G r c).
Proof.
  intros H. rewrite candidates_unassigned by done.
  rewrite list_elem_of_In, List.filter_In, <- list_elem_of_In, elem_of_range.
  rewrite negb_true_iff, bool_decide_eq_false. intuition lia.
Qed.

Lemma candidates_digit G r c d :
  ¬ 0 < Spec.cell G r c → d ∈ Spec.candidates G r c → 1 ≤ d ≤ 9.
Proof. intros H Hd. by apply elem_of_candidates in Hd as [? _]. Qed.

Lemma length_candidates G r c : (length (Spec.candidates G r c) ≤ 9)%nat.
Proof.
  unfold Spec.candidates. destruct (Spec.assigned _ _); [simpl; lia|].
  etrans; [apply List.filter_length_le|]. done.
Qed.

Lemma StronglySorted_lt_filter (f : Z → bool) l :
  StronglySorted Z.lt l → StronglySorted Z.lt (List.filter f l).
Proof.
  induction 1 as [|x l Hl IH Hx]; simpl; [constructor|].
  destruct (f x); [|done]. constructor; [done|].
  apply Forall_forall. intros y Hy.
  apply list_elem_of_In, List.filter_In in Hy as [Hy _].
  rewrite Forall_forall in Hx. by apply Hx, list_elem_of_In.
Qed.

Lemma candidates_ascending G r c :
  ¬ 0 < Spec.cell G r c → StronglySorted Z.lt (Spec.candidates G r c).
Proof.
  intros H. rewrite candidates_unassigned by done.
  apply StronglySorted_lt_filter.
  apply (bool_decide_unpack _). by vm_compute.
Qed.

(** Membership in the three views, said with [get_number]. *)

Lemma elem_of_row_values G r d :
  wf_grid G → coord r → d ∈ Spec.row_values G r ↔ in_row G r d.
Proof.
  intros HG Hr. unfold Spec.row_values, in_row.
  rewrite list_elem_of_fmap. split.
  - intros (c & -> & Hc). apply elem_of_range in Hc.
    exists c. split; [done|]. by apply get_number_cell.
  - intros (c & Hc & Hget). rewrite get_number_cell in Hget by done.
    exists c. split; [congruence|]. by apply elem_of_range.
Qed.

Lemma elem_of_column_values G c d :
  wf_grid G → coord c → d ∈ Spec.column_values G c ↔ in_column G c d.
Proof.
  intros HG Hc. unfold Spec.column_values, in_column.
  rewrite list_elem_of_fmap. split.
  - intros (r & -> & Hr). apply elem_of_range in Hr.
    exists r. split; [done|]. by apply get_number_cell.
  - intros (r & Hr & Hget). rewrite get_number_cell in Hget by done.
    exists r. split; [congruence|]. by apply elem_of_range.
Qed.

Lemma box_coord i j : coord i → i `div` 3 * 3 ≤ j < i `div` 3 * 3 + 3 → coord j.
Proof.
  unfold coord. intros Hi Hj.
  pose proof (Z.div_mod i 3). pose proof (Z.mod_pos_bound i 3). lia.
Qed.

Lemma elem_of_box_values G r c d :
  wf_grid G → coord r → coord c →
  d ∈ Spec.box_values G r c ↔ in_box G r c d.
Proof.
  intros HG Hr Hc. unfold Spec.box_values, in_box.
  rewrite list_elem_of_bind. split.
  - intros (r' & Hin & Hr'). apply list_elem_of_bind in Hin as (c' & Hin & Hc').
    apply list_elem_of_singleton in Hin as ->.
    apply elem_of_range in Hr', Hc'.
    exists r', c'. split_and!; try lia.
    apply get_number_cell;
      [done|apply (box_coord r); [done|lia]|apply (box_coord c); [done|lia]].
  - intros (r' & c' & Hr' & Hc' & Hget).
    rewrite get_number_cell in Hget
      by (done || (apply (box_coord r); done) || (apply (box_coord c); done)).
    exists r'. split; [|by apply elem_of_range].
    apply list_elem_of_bind. exists c'. split; [|by apply elem_of_range].
    apply list_elem_of_singleton. congruence.
Qed.

(** ** [find_most_constrained] *)

Lemma find_most_constrained_scan G :
  wf_grid G →
  find_most_constrained G
  = Ok (foldl (scan_step G) (10, (-1, -1)) Spec.cells).2.
Proof.
  intros HG.
  pose (body := λ (st : Z * (Z * Z)) (p : Z * Z),
       let '(lowest, field) := st in
       solved ← is_solved G p.1 p.2;
       if negb solved then
         possibilities ← get_possibilities G p.1 p.2;
         let count := Z.of_nat (length possibilities) in
         if bool_decide (count < lowest)
         then Ok (count, (p.1, p.2))
         else Ok (lowest, field)
       else Ok (lowest, field)).
  change (find_most_constrained G) with
    (st ← for_each (λ s a, for_each (λ s b, body s (a, b)) (range 0 9) s)
            (range 0 9) (10, (-1, -1)); Ok st.2).
  rewrite (for_each_nested body). subst body.
  fold Spec.cells.
  rewrite (for_each_pure _ (scan_step G)); [done|].
  intros [lowest field] [r c] Hin. apply elem_of_cells in Hin as [Hr Hc].
  unfold scan_step, Spec.count. cbn [fst snd].
  rewrite is_solved_assigned, bind_Ok by done.
  destruct (Spec.assigned G (r, c)); [done|]. cbn [negb].
  rewrite get_possibilities_spec, bind_Ok by done.
  by case_bool_decide.
Qed.

Lemma scan_fewest G l b :
  foldl (scan_step G) (Z.of_nat (Spec.count G b), b) l
  = (let b' := Spec.fewest G b (List.filter (λ p, negb (Spec.assigned G p)) l)
     in (Z.of_nat (Spec.count G b'), b')).
Proof.
  revert b. induction l as [|p l IH]; intros b; [done|].
  cbn [foldl List.filter]. unfold scan_step at 2.
  destruct (Spec.assigned G p); cbn [negb fst]; [apply IH|].
  unfold Spec.fewest. cbn [foldl]. fold (Spec.fewest G).
  destruct (decide (Spec.count G p < Spec.count G b)%nat) as [Hlt|Hge].
  - rewrite bool_decide_eq_true_2 by lia.
    rewrite (bool_decide_eq_true_2 (_ < _)%nat) by done. apply IH.
  - rewrite bool_decide_eq_false_2 by lia.
    rewrite (bool_decide_eq_false_2 (_ < _)%nat) by done. apply IH.
Qed.

Lemma scan_first G l s :
  foldl (scan_step G) (10, s) l
  = match List.filter (λ p, negb (Spec.assigned G p)) l with
    | [] => (10, s)
    | first :: rest =>
        let b := Spec.fewest G first rest in (Z.of_nat (Spec.count G b), b)
    end.
Proof.
  induction l as [|p l IH]; [done|].
  cbn [foldl List.filter]. unfold scan_step at 2.
  destruct (Spec.assigned G p); cbn [negb fst]; [apply IH|].
  rewrite bool_decide_eq_true_2.
  - apply scan_fewest.
  - pose proof (length_candidates G p.1 p.2). unfold Spec.count. lia.
Qed.

Lemma find_most_constrained_spec G :
  wf_grid G → find_most_constrained G = Ok (Spec.most_constrained G).
Proof.
  intros HG. rewrite find_most_constrained_scan by done. f_equal.
  rewrite scan_first. unfold Spec.most_constrained.
  by destruct (List.filter _ Spec.cells).
Qed.

(** The fold of [Spec.fewest] picks the first minimum. *)
Lemma fewest_split G first l :
  ∃ l1 l2, first :: l = l1 ++ Spec.fewest G first l :: l2
    ∧ (∀ x, x ∈ l1 → (Spec.count G (Spec.fewest G first l) < Spec.count G x)%nat)
    ∧ (∀ x, x ∈ l2 → (Spec.count G (Spec.fewest G first l) ≤ Spec.count G x)%nat).
Proof.
  induction l as [|x l IH] using rev_ind.
  - exists [], []. split_and!; [done|intros x Hx; by apply elem_of_nil in Hx..].
  - destruct IH as (l1 & l2 & Heq & H1 & H2).
    unfold Spec.fewest. rewrite foldl_app. cbn [foldl]. fold (Spec.fewest G first l).
    set (b := Spec.fewest G first l) in *.
    case_bool_decide as Hlt.
    + exists (l1 ++ b :: l2), []. split_and!.
      * by rewrite app_comm_cons, Heq.
      * intros y Hy. apply elem_of_app in Hy as [Hy|Hy].
        { specialize (H1 y Hy). lia. }
        apply elem_of_cons in Hy as [->|Hy]; [done|].
        specialize (H2 y Hy). lia.
      * intros y Hy. by apply elem_of_nil in Hy.
    + exists l1, (l2 ++ [x]). split_and!.
      * rewrite app_comm_cons, Heq. by rewrite <- app_assoc.
      * done.
      * intros y Hy. apply elem_of_app in Hy as [Hy|Hy]; [by apply H2|].
        apply list_elem_of_singleton in Hy as ->. lia.
Qed.

Lemma StronglySorted_filter {A} (R : relation A) (f : A → bool) l :
  StronglySorted R l → StronglySorted R (List.filter f l).
Proof.
  induction 1 as [|x l Hl IH Hx]; simpl; [constructor|].
  destruct (f x); [|done]. constructor; [done|].
  apply Forall_forall. intros y Hy.
  apply list_elem_of_In, List.filter_In in Hy as [Hy _].
  rewrite Forall_forall in Hx. by apply Hx, list_elem_of_In.
Qed.

Lemma cells_scan_order : StronglySorted scanned_before Spec.cells.
Proof. apply (bool_decide_unpack _). by vm_compute. Qed.

Lemma elem_of_unassigned_cells G r c :
  (r, c) ∈ unassigned_cells G ↔
  coord r ∧ coord c ∧ Spec.assigned G (r, c) = false.
Proof.
  unfold unassigned_cells.
  rewrite list_elem_of_In, List.filter_In, <- list_elem_of_In, elem_of_cells.
  rewrite negb_true_iff. tauto.
Qed.

Lemma most_constrained_sentinel G :
  unassigned_cells G = [] → Spec.most_constrained G = (-1, -1).
Proof.
  unfold unassigned_cells, Spec.most_constrained. by intros ->.
Qed.

Lemma most_constrained_first_min G :
  unassigned_cells G ≠ [] →
  Spec.most_constrained G ∈ unassigned_cells G
  ∧ ∀ q, q ∈ unassigned_cells G →
      (Spec.count G (Spec.most_constrained G) ≤ Spec.count G q)%nat
      ∧ (scanned_before q (Spec.most_constrained G) →
         (Spec.count G (Spec.most_constrained G) < Spec.count G q)%nat).
Proof.
  intros Hne.
  pose proof (StronglySorted_filter _ (λ p, negb (Spec.assigned G p)) _
                cells_scan_order) as Hsorted.
  fold (unassigned_cells G) in Hsorted.
  unfold Spec.most_constrained. fold (unassigned_cells G).
  destruct (unassigned_cells G) as [|first l]; [done|].
  destruct (fewest_split G first l) as (l1 & l2 & Heq & H1 & H2).
  set (b := Spec.fewest G first l) in *. rewrite Heq in *.
  split.
  - apply elem_of_app. right. by left.
  - intros q Hq. apply elem_of_app in Hq as [Hq|Hq].
    + specialize (H1 q Hq). split; [lia|done].
    + apply StronglySorted_app_1_r, StronglySorted_cons in Hsorted as [Hb _].
      apply elem_of_cons in Hq as [->|Hq].
      * split; [done|]. unfold scanned_before. lia.
      * specialize (H2 q Hq). split; [done|].
        rewrite Forall_forall in Hb. specialize (Hb q Hq).
        unfold scanned_before in *. lia.
Qed.

(** ** Snapshots *)

Lemma rows_join G :
  length G = 9%nat → Forall (λ line, length line = 9%nat) G →
  Np.rows 9 9 (mjoin G) = G.
Proof.
  intros Hlen Hall. explode_list G Hlen.
  repeat match type of Hall with
  | Forall _ (?l :: _) =>
      let Hl := fresh "Hl" in
      apply Forall_cons in Hall as [Hl Hall]; explode_list l Hl
  end.
  reflexivity.
Qed.

Lemma set_grid_get_grid G Q : wf_grid Q → set_grid G (get_grid Q) = Q.
Proof.
  intros [Hlen Hall]. unfold set_grid, get_grid. cbn [Np.shape Np.items].
  rewrite rows_join; [|done|by eapply Forall_impl; [done|intros ? [? _]]].
  cbn. clear Hlen. induction Hall as [|line Q [_ H8] HQ IH]; [done|].
  cbn [map]. f_equal; [|done].
  clear -H8. induction H8 as [|v line Hv Hline IH]; [done|].
  cbn [map]. by rewrite wrap8_int8, IH.
Qed.

(** ** The rounds of [solve] *)

Lemma completed_unassigned_cells G :
  Spec.completed G = true ↔ unassigned_cells G = [].
Proof.
  unfold Spec.completed, unassigned_cells.
  induction Spec.cells as [|p l IH]; [done|]. cbn [forallb List.filter].
  destruct (Spec.assigned G p); cbn [negb andb]; [done|]. split; done.
Qed.

Lemma most_constrained_unassigned G :
  Spec.completed G = false →
  coord (Spec.most_constrained G).1 ∧ coord (Spec.most_constrained G).2
  ∧ ¬ 0 < Spec.cell G (Spec.most_constrained G).1 (Spec.most_constrained G).2.
Proof.
  intros Hc.
  assert (unassigned_cells G ≠ []) as Hne.
  { intros He. apply completed_unassigned_cells in He. congruence. }
  destruct (most_constrained_first_min G Hne) as [Hin _].
  destruct (Spec.most_constrained G) as [r c].
  apply elem_of_unassigned_cells in Hin as (Hr & Hcc & Ha).
  split_and!; [done..|]. unfold Spec.assigned in Ha.
  by apply bool_decide_eq_false_1 in Ha.
Qed.

Lemma branch_frontier r c vs G F :
  (Spec.branch r c vs G F).2 = F ++ ((λ v, Spec.set G r c v) <$> vs).
Proof.
  unfold Spec.branch. revert G F. induction vs as [|v vs IH]; intros G F.
  - by rewrite app_nil_r.
  - cbn [foldl fmap list_fmap]. rewrite IH, <- app_assoc. cbn [app]. do 2 f_equal.
    apply list_fmap_ext. intros _ w _. apply set_set.
Qed.

Lemma try_all_branch r c vs G F :
  wf_grid G → coord r → coord c → Forall Np.int8 vs →
  try_all r c vs G (get_grid <$> F)
  = Ok ((Spec.branch r c vs G F).1, get_grid <$> (Spec.branch r c vs G F).2).
Proof.
  intros HG Hr Hc Hvs. unfold try_all, Spec.branch.
  revert G F HG. induction Hvs as [|v vs Hv Hvs IH]; intros G F HG; [done|].
  cbn [for_each foldl].
  rewrite set_number_set, bind_Ok, bind_Ok, wrap8_int8 by done.
  replace ((get_grid <$> F) ++ [get_grid (Spec.set G r c v)])
    with (get_grid <$> (F ++ [Spec.set G r c v])) by by rewrite fmap_app.
  apply IH. by apply wf_grid_set.
Qed.

Lemma candidates_int8 G r c :
  ¬ 0 < Spec.cell G r c → Forall Np.int8 (Spec.candidates G r c).
Proof.
  intros H. apply Forall_forall. intros d Hd.
  apply candidates_digit in Hd; [|done]. unfold Np.int8. lia.
Qed.

Lemma wf_children G :
  wf_grid G → Spec.completed G = false → Forall wf_grid (children G).
Proof.
  intros HG Hc. destruct (most_constrained_unassigned G Hc) as (Hr & Hcc & Hu).
  unfold children. apply Forall_fmap, Forall_forall. intros v Hv. cbn.
  apply wf_grid_set; [done|].
  pose proof (candidates_int8 _ _ _ Hu) as H8.
  rewrite Forall_forall in H8. by apply H8.
Qed.

Lemma solve_turn_spec G F front rest :
  wf_grid G → Forall wf_grid F → Spec.completed G = false →
  F ++ children G = front :: rest →
  solve_turn G (get_grid <$> F) false
  = Ok (front, get_grid <$> rest, Spec.completed front, bool_decide (rest = [])).
Proof.
  intros HG HF Hc Hpop.
  destruct (most_constrained_unassigned G Hc) as (Hr & Hcc & Hu).
  assert (wf_grid front) as Hfront.
  { assert (Forall wf_grid (front :: rest)) as Hall.
    { rewrite <- Hpop. apply Forall_app. split; [done|by apply wf_children]. }
    by apply Forall_cons in Hall as [? _]. }
  unfold solve_turn. rewrite find_most_constrained_spec, bind_Ok by done.
  unfold children in Hpop.
  destruct (Spec.most_constrained G) as [r c]. cbn [fst snd] in *.
  rewrite get_possibilities_spec, bind_Ok by done.
  rewrite try_all_branch, bind_Ok by (done || by apply candidates_int8).
  rewrite branch_frontier, Hpop. cbn [fmap list_fmap].
  rewrite set_grid_get_grid, is_completed_spec, bind_Ok by done.
  do 3 f_equal. rewrite length_fmap.
  destruct rest; [done|]. cbn [length]. by rewrite !bool_decide_eq_false_2.
Qed.

Lemma loop_exit_completed fuel G F popped :
  Spec.completed G = true →
  Spec.loop fuel G F popped = Some (Spec.Final G Spec.Completed popped).
Proof. intros H. destruct fuel; cbn [Spec.loop]; by rewrite H. Qed.

Lemma loop_exit_exhausted fuel G popped :
  Spec.completed G = false →
  Spec.loop fuel G [] popped = Some (Spec.Final G Spec.Exhausted popped).
Proof. intros H. destruct fuel; cbn [Spec.loop]; by rewrite H. Qed.

Lemma loop_round fuel G F popped front rest :
  Spec.completed G = false → F ≠ [] → F ++ children G = front :: rest →
  Spec.loop (S fuel) G F popped = Spec.loop fuel front rest (Some front).
Proof.
  intros Hc HF Hpop. cbn [Spec.loop]. rewrite Hc.
  rewrite bool_decide_eq_false_2 by done.
  unfold children in Hpop. destruct (Spec.most_constrained G) as [r c].
  cbn [fst snd] in Hpop.
  pose proof (branch_frontier r c (Spec.candidates G r c) G F) as Hb.
  destruct (Spec.branch r c (Spec.candidates G r c) G F) as [G' F'].
  cbn [snd] in Hb. by rewrite Hb, Hpop.
Qed.

Lemma loop_out_of_fuel G F popped :
  Spec.completed G = false → F ≠ [] → Spec.loop 0 G F popped = None.
Proof.
  intros Hc HF. cbn [Spec.loop]. rewrite Hc.
  by rewrite bool_decide_eq_false_2.
Qed.

(** The [while] loop of [solve] and the loop of the specification go round
    together. *)
Lemma solve_while_loop fuel G F popped :
  wf_grid G → Forall wf_grid F →
  solve_while fuel G (get_grid <$> F) (Spec.completed G) (bool_decide (F = []))
  = (λ res, Ok (Spec.live res)) <$> Spec.loop fuel G F popped.
Proof.
  revert G F popped. induction fuel as [|fuel IH]; intros G F popped HG HF.
  - cbn [solve_while]. destruct (Spec.completed G) eqn:Hc.
    { by rewrite loop_exit_completed. }
    destruct F as [|Q F].
    { by rewrite loop_exit_exhausted. }
    rewrite loop_out_of_fuel by done. by rewrite bool_decide_eq_false_2.
  - cbn [solve_while]. destruct (Spec.completed G) eqn:Hc.
    { by rewrite loop_exit_completed. }
    destruct F as [|Q F].
    { by rewrite loop_exit_exhausted. }
    rewrite bool_decide_eq_false_2 by done. cbn [negb andb].
    rewrite (solve_turn_spec G (Q :: F) Q (F ++ children G)) by done.
    rewrite (loop_round fuel G (Q :: F) popped Q (F ++ children G)) by done.
    apply Forall_cons in HF as [HQ HF].
    rewrite <- IH; [done|done|].
    apply Forall_app. split; [done|by apply wf_children].
Qed.

Lemma solve_spec fuel G :
  wf_grid G →
  solve fuel G = (λ res, Ok (Spec.live res)) <$> Spec.solve fuel G.
Proof.
  intros HG. unfold solve, Spec.solve. rewrite is_completed_spec by done.
  by rewrite <- (solve_while_loop fuel G [G] None) by (done || by constructor).
Qed.

(** ** Every round assigns one more cell *)

Lemma filter_length_flip `{EqDecision A} (f g : A → bool) (l : list A) p :
  NoDup l → p ∈ l → f p = true → g p = false →
  (∀ q, q ∈ l → q ≠ p → g q = f q) →
  S (length (List.filter g l)) = length (List.filter f l).
Proof.
  intros Hnd Hp Hfp Hgp Hsame.
  induction Hnd as [|x l Hx Hnd IH]; [by apply elem_of_nil in Hp|].
  cbn [List.filter]. destruct (decide (x = p)) as [->|Hne].
  - rewrite Hfp, Hgp. cbn [length]. f_equal. f_equal.
    apply List.filter_ext_in. intros q Hq. apply list_elem_of_In in Hq.
    apply Hsame; [by right|]. by intros ->.
  - rewrite (Hsame x) by (done || by left).
    apply elem_of_cons in Hp as [->|Hp]; [done|].
    assert (S (length (List.filter g l)) = length (List.filter f l)) as IH'.
    { apply IH; [done|]. intros q Hq Hqp. apply Hsame; [by right|done]. }
    destruct (f x); cbn [length]; lia.
Qed.

Lemma cells_NoDup : NoDup Spec.cells.
Proof. apply (bool_decide_unpack _). by vm_compute. Qed.

Lemma unassigned_count_set G r c v :
  wf_grid G → coord r → coord c → ¬ 0 < Spec.cell G r c → 0 < v →
  S (unassigned_count (Spec.set G r c v)) = unassigned_count G.
Proof.
  intros HG Hr Hc Hu Hv. unfold unassigned_count, unassigned_cells.
  apply (filter_length_flip _ _ _ (r, c)).
  - apply cells_NoDup.
  - by apply elem_of_cells.
  - unfold Spec.assigned. cbn [fst snd]. by rewrite bool_decide_eq_false_2.
  - unfold Spec.assigned. cbn [fst snd]. rewrite cell_set_eq by done.
    by rewrite bool_decide_eq_true_2.
  - intros [r' c'] Hin Hne. apply elem_of_cells in Hin as [Hr' Hc'].
    unfold Spec.assigned. cbn [fst snd].
    rewrite cell_set_ne; [done|unfold coord in *; lia..|done].
Qed.

Lemma completed_unassigned_count G :
  Spec.completed G = true ↔ unassigned_count G = 0%nat.
Proof.
  rewrite completed_unassigned_cells. unfold unassigned_count.
  by destruct (unassigned_cells G).
Qed.

Lemma children_unassigned_count G :
  wf_grid G → Spec.completed G = false →
  Forall (λ Q, S (unassigned_count Q) = unassigned_count G) (children G).
Proof.
  intros HG Hc. destruct (most_constrained_unassigned G Hc) as (Hr & Hcc & Hu).
  unfold children. apply Forall_fmap, Forall_forall. intros v Hv. cbn.
  apply unassigned_count_set; try done.
  apply candidates_digit in Hv; [lia|done].
Qed.

Lemma length_children G : (length (children G) ≤ 9)%nat.
Proof. unfold children. rewrite length_fmap. apply length_candidates. Qed.

Lemma tree_size_pos u : (1 ≤ tree_size u)%nat.
Proof. destruct u; cbn [tree_size]; lia. Qed.

Lemma sum_list_children G u :
  unassigned_count G = S u →
  Forall (λ Q, S (unassigned_count Q) = unassigned_count G) (children G) →
  (sum_list_with (λ Q, tree_size (unassigned_count Q)) (children G)
   ≤ 9 * tree_size u)%nat.
Proof.
  intros Hu Hall.
  assert (sum_list_with (λ Q, tree_size (unassigned_count Q)) (children G)
          = length (children G) * tree_size u)%nat as ->.
  { induction Hall as [|Q l HQ Hl IH]; [done|].
    cbn [sum_list_with length]. rewrite IH.
    replace (unassigned_count Q) with u by lia.
    rewrite Nat.mul_succ_l. lia. }
  apply Nat.mul_le_mono_r, length_children.
Qed.

Lemma rounds_bound_round G F front rest :
  wf_grid G → Spec.completed G = false →
  F ++ children G = front :: rest →
  (rounds_bound front rest < rounds_bound G F)%nat.
Proof.
  intros HG Hc Hpop.
  destruct (unassigned_count G) as [|u] eqn:Hu.
  { apply completed_unassigned_count in Hu. congruence. }
  pose proof (sum_list_children G u Hu (children_unassigned_count G HG Hc)) as Hsum.
  pose proof (sum_list_with_app (λ Q, tree_size (unassigned_count Q))
                F (children G)) as Heq.
  rewrite Hpop in Heq. cbn [sum_list_with] in Heq.
  unfold rounds_bound. rewrite Hu. cbn [tree_size].
  pose proof (tree_size_pos (unassigned_count front)). lia.
Qed.

(** ** Termination *)

Lemma loop_terminates n G F popped :
  wf_grid G → Forall wf_grid F → (rounds_bound G F ≤ n)%nat →
  ∃ res, Spec.loop n G F popped = Some res.
Proof.
  revert G F popped. induction n as [|n IH]; intros G F popped HG HF Hn.
  - destruct (Spec.completed G) eqn:Hc.
    { eexists. by apply loop_exit_completed. }
    apply not_true_iff_false in Hc.
    rewrite completed_unassigned_count in Hc.
    unfold rounds_bound in Hn.
    destruct (unassigned_count G); [done|]. cbn [tree_size] in Hn.
    pose proof (tree_size_pos n). lia.
  - destruct (Spec.completed G) eqn:Hc.
    { eexists. by apply loop_exit_completed. }
    destruct F as [|Q F].
    { eexists. by apply loop_exit_exhausted. }
    rewrite (loop_round n G (Q :: F) popped Q (F ++ children G)) by done.
    apply Forall_cons in HF as [HQ HF].
    apply IH; [done| |].
    + apply Forall_app. split; [done|by apply wf_children].
    + pose proof (rounds_bound_round G (Q :: F) Q (F ++ children G) HG Hc eq_refl).
      lia.
Qed.

Lemma loop_more_fuel n m G F popped res :
  Spec.loop n G F popped = Some res → (n ≤ m)%nat →
  Spec.loop m G F popped = Some res.
Proof.
  revert m G F popped. induction n as [|n IH]; intros m G F popped Hloop Hm.
  - destruct (Spec.completed G) eqn:Hc.
    { rewrite loop_exit_completed in Hloop |- * by done. done. }
    destruct F as [|Q F].
    { rewrite loop_exit_exhausted in Hloop |- * by done. done. }
    by rewrite loop_out_of_fuel in Hloop.
  - destruct (Spec.completed G) eqn:Hc.
    { rewrite loop_exit_completed in Hloop |- * by done. done. }
    destruct F as [|Q F].
    { rewrite loop_exit_exhausted in Hloop |- * by done. done. }
    destruct m as [|m]; [lia|].
    rewrite (loop_round n G (Q :: F) popped Q (F ++ children G)) in Hloop by done.
    rewrite (loop_round m G (Q :: F) popped Q (F ++ children G)) by done.
    apply IH; [done|lia].
Qed.

(** ** What a finished search leaves in the grid *)

Lemma loop_outcome n G F popped res :
  Spec.loop n G F popped = Some res →
  (F ≠ [] ∨ popped = Some G) →
  match Spec.how res with
  | Spec.Completed => Spec.completed (Spec.live res) = true
  | Spec.Exhausted =>
      Spec.completed (Spec.live res) = false
      ∧ Spec.last_popped res = Some (Spec.live res)
  end.
Proof.
  revert G F popped. induction n as [|n IH]; intros G F popped Hloop Hinv.
  - destruct (Spec.completed G) eqn:Hc.
    { rewrite loop_exit_completed in Hloop by done. by inversion Hloop. }
    destruct F as [|Q F].
    { rewrite loop_exit_exhausted in Hloop by done. inversion Hloop. cbn.
      destruct Hinv; done. }
    by rewrite loop_out_of_fuel in Hloop.
  - destruct (Spec.completed G) eqn:Hc.
    { rewrite loop_exit_completed in Hloop by done. by inversion Hloop. }
    destruct F as [|Q F].
    { rewrite loop_exit_exhausted in Hloop by done. inversion Hloop. cbn.
      destruct Hinv; done. }
    rewrite (loop_round _ G (Q :: F) popped Q (F ++ children G)) in Hloop by done.
    apply (IH _ _ _ Hloop). by right.
Qed.

Lemma extends_refl G : extends G G.
Proof. by intros r c _ _ _. Qed.

Lemma extends_children G0 G :
  wf_grid G → Spec.completed G = false → extends G0 G →
  Forall (extends G0) (children G).
Proof.
  intros HG Hc Hext.
  destruct (most_constrained_unassigned G Hc) as (Hr & Hcc & Hu).
  unfold children. apply Forall_fmap, Forall_forall. intros v Hv. cbn.
  intros r c Hr' Hc' Hpos.
  rewrite cell_set_ne; [by apply Hext|unfold coord in *; lia..|].
  intros Heq. apply Hu. injection Heq as <- <-.
  rewrite (Hext r c) by done. done.
Qed.

Lemma loop_invariant (P : grid → Prop) n G F popped res :
  (∀ X, P X → wf_grid X) →
  (∀ X, P X → Spec.completed X = false → Forall P (children X)) →
  P G → Forall P F →
  Spec.loop n G F popped = Some res → P (Spec.live res).
Proof.
  intros Hwf Hstep. revert G F popped.
  induction n as [|n IH]; intros G F popped HG HF Hloop.
  - destruct (Spec.completed G) eqn:Hc.
    { rewrite loop_exit_completed in Hloop by done. by inversion Hloop. }
    destruct F as [|Q F].
    { rewrite loop_exit_exhausted in Hloop by done. by inversion Hloop. }
    by rewrite loop_out_of_fuel in Hloop.
  - destruct (Spec.completed G) eqn:Hc.
    { rewrite loop_exit_completed in Hloop by done. by inversion Hloop. }
    destruct F as [|Q F].
    { rewrite loop_exit_exhausted in Hloop by done. by inversion Hloop. }
    rewrite (loop_round _ G (Q :: F) popped Q (F ++ children G)) in Hloop by done.
    apply Forall_cons in HF as [HQ HF].
    apply (IH Q (F ++ children G) (Some Q)); try done.
    apply Forall_app. split; [done|by apply Hstep].
Qed.

Lemma loop_wf n G F popped res :
  wf_grid G → Forall wf_grid F →
  Spec.loop n G F popped = Some res → wf_grid (Spec.live res).
Proof.
  apply (loop_invariant wf_grid); [done|]. intros X HX Hc. by apply wf_children.
Qed.

Lemma loop_extends G0 n G F popped res :
  wf_grid G → Forall wf_grid F → extends G0 G → Forall (extends G0) F →
  Spec.loop n G F popped = Some res → extends G0 (Spec.live res).
Proof.
  intros HG HF HeG HeF Hloop.
  apply (loop_invariant (λ X, wf_grid X ∧ extends G0 X) n G F popped res).
  - by intros X [? _].
  - intros X [HX HeX] Hc.
    pose proof (wf_children X HX Hc) as H1.
    pose proof (extends_children G0 X HX Hc HeX) as H2.
    rewrite Forall_forall in H1, H2 |- *. intros Y HY. split; auto.
  - done.
  - rewrite Forall_forall in HF, HeF |- *. intros Y HY. split; auto.
  - done.
Qed.

Lemma in_domain_cell G r c :
  in_domain G → 0 ≤ Spec.cell G r c ≤ 9.
Proof.
  intros Hd. unfold Spec.cell.
  destruct (G !! Z.to_nat r) as [line|] eqn:Hline; [|cbn; lia]. cbn.
  destruct (line !! Z.to_nat c) as [v|] eqn:Hv; [|cbn; lia]. cbn.
  unfold in_domain in Hd. rewrite Forall_forall in Hd.
  specialize (Hd line (list_elem_of_lookup_2 _ _ _ Hline)).
  rewrite Forall_forall in Hd.
  apply (Hd v (list_elem_of_lookup_2 _ _ _ Hv)).
Qed.

(** * The claims *)

(** ** Cells *)

(** C7. For a grid, coordinates in [0,9)x[0,9) and a value [v] in [0,9]:
    after [set_number(row, column, v)], [get_number(row, column)] returns
    [v]. *)
Theorem set_number_get_number G row column v :
  wf_grid G → coord row → coord column → 0 ≤ v ≤ 9 →
  ∃ G', set_number G row column v = Ok G'
        ∧ get_number G' row column = Ok v.
Proof.
  intros HG Hr Hc Hv. exists (Spec.set G row column v). split.
  - rewrite set_number_set by done. f_equal. rewrite wrap8_int8; [done|].
    unfold Np.int8. lia.
  - rewrite get_number_cell; [|apply wf_grid_set; [done|unfold Np.int8; lia]|done..].
    by rewrite cell_set_eq.
Qed.

Lemma set_number_get_number_witness :
  wf_grid foo ∧ coord 4 ∧ coord 2 ∧ 0 ≤ 3 ≤ 9
  ∧ ∃ G', set_number foo 4 2 3 = Ok G' ∧ get_number G' 4 2 = Ok 3.
Proof.
  assert (wf_grid foo) as HG by (apply (bool_decide_unpack _); by vm_compute).
  assert (coord 4) as Hr by (unfold coord; lia).
  assert (coord 2) as Hc by (unfold coord; lia).
  assert (0 ≤ 3 ≤ 9) as Hv by lia.
  split_and!; [done..|]. exact (set_number_get_number foo 4 2 3 HG Hr Hc Hv).
Defined.

Lemma mod_9_negative i : -9 ≤ i < 0 → i `mod` 9 = i + 9.
Proof.
  intros Hi. rewrite <- (Z.mod_small (i + 9) 9) by lia.
  replace (i + 9) with (i + 1 * 9) by lia. by rewrite Z.mod_add.
Qed.

(** C6, as the code has it.  For a row and a column that fit NumPy's index
    type and a value in the int8 range: NumPy indexing, which the two
    methods use bare, raises [IndexError] for a row or a column outside
    [-9, 9) and nothing else; a row or a column in [-9, 0) counts from the
    end of its axis, so the cell at [row mod 9], [column mod 9] is read or
    written. *)
Theorem index_outside_raises G row column v :
  wf_grid G → index_sized row → index_sized column → Np.int8 v →
  ((row < -9 ∨ 9 ≤ row ∨ column < -9 ∨ 9 ≤ column) →
     get_number G row column = Raise IndexError
     ∧ set_number G row column v = Raise IndexError)
  ∧ (-9 ≤ row < 9 → -9 ≤ column < 9 →
     get_number G row column = get_number G (row `mod` 9) (column `mod` 9)
     ∧ set_number G row column v
       = set_number G (row `mod` 9) (column `mod` 9) v
     ∧ (∃ n, get_number G row column = Ok n)
     ∧ (∃ G', set_number G row column v = Ok G')).
Proof.
  intros HG _ _ _.
  assert (∀ r, -9 ≤ r < 9 → coord (r `mod` 9)
               ∧ Np.item G r = Np.item G (r `mod` 9)) as Hrow.
  { intros r Hr. destruct HG as [Hlen _]. split.
    { unfold coord. apply Z.mod_pos_bound. lia. }
    destruct (decide (r < 0)) as [Hneg|Hpos].
    - rewrite item_negative by lia. f_equal. rewrite Hlen, mod_9_negative; lia.
    - by rewrite Z.mod_small by lia. }
  assert (∀ (line : list Z) c, length line = 9%nat → -9 ≤ c < 9 →
            Np.item line c = Np.item line (c `mod` 9)
            ∧ ∀ x, Np.set_item line c x = Np.set_item line (c `mod` 9) x)
    as Hcol.
  { intros line c Hlen Hc. destruct (decide (c < 0)) as [Hneg|Hpos].
    - rewrite mod_9_negative by lia. split.
      + rewrite item_negative by lia. by rewrite Hlen.
      + intros x. unfold Np.set_item.
        rewrite norm_index_negative, norm_index_coord by lia.
        by rewrite Hlen.
    - by rewrite Z.mod_small by lia. }
  split.
  - intros Hout. unfold get_number, set_number, Np.item2, Np.set_item2.
    destruct (decide (row < -9 ∨ 9 ≤ row)) as [Hr|Hr].
    { rewrite item_outside; [done|]. destruct HG as [-> _]. lia. }
    destruct (Hrow row ltac:(lia)) as [Hcr ->].
    destruct (item_row G _ HG Hcr) as (line & -> & _ & Hlen).
    rewrite !bind_Ok. rewrite item_outside by (rewrite Hlen; lia).
    split; [done|]. by rewrite set_item_outside by (rewrite Hlen; lia).
  - intros Hr Hc. destruct (Hrow row Hr) as [Hcr Hitem].
    assert (coord (column `mod` 9)) as Hcc.
    { unfold coord. apply Z.mod_pos_bound. lia. }
    assert (get_number G row column
            = get_number G (row `mod` 9) (column `mod` 9)) as Hget.
    { unfold get_number, Np.item2. rewrite Hitem.
      destruct (item_row G _ HG Hcr) as (line & -> & _ & Hlen).
      rewrite !bind_Ok. by apply Hcol. }
    assert (set_number G row column v
            = set_number G (row `mod` 9) (column `mod` 9) v) as Hset.
    { unfold set_number, Np.set_item2. rewrite Hitem.
      destruct (item_row G _ HG Hcr) as (line & -> & _ & Hlen).
      rewrite !bind_Ok.
      destruct (Hcol line column Hlen Hc) as [_ ->].
      rewrite set_item_coord by (unfold coord in Hcc; lia). rewrite !bind_Ok.
      destruct HG as [HlenG _]. unfold Np.set_item. rewrite HlenG.
      destruct (decide (row < 0)) as [Hneg|Hpos].
      - rewrite (norm_index_negative _ row), (mod_9_negative row) by lia.
        by rewrite norm_index_coord by lia.
      - by rewrite (Z.mod_small row) by lia. }
    split_and!; [done|done| |].
    + rewrite Hget, get_number_cell by done. by eexists.
    + rewrite Hset, set_number_set by done. by eexists.
Qed.

Lemma index_outside_raises_witness :
  wf_grid foo
  ∧ index_sized 9 ∧ index_sized 0 ∧ index_sized (-1) ∧ index_sized (-4)
  ∧ Np.int8 5
  ∧ (get_number foo 9 0 = Raise IndexError
     ∧ set_number foo 9 0 5 = Raise IndexError)
  ∧ (get_number foo (-1) (-4) = get_number foo 8 5
     ∧ set_number foo (-1) (-4) 5 = set_number foo 8 5 5).
Proof.
  assert (wf_grid foo) as HG by (apply (bool_decide_unpack _); by vm_compute).
  assert (index_sized 9) as H9 by (unfold index_sized; lia).
  assert (index_sized 0) as H0 by (unfold index_sized; lia).
  assert (index_sized (-1)) as H1 by (unfold index_sized; lia).
  assert (index_sized (-4)) as H4 by (unfold index_sized; lia).
  assert (Np.int8 5) as H5 by (unfold Np.int8; lia).
  destruct (index_outside_raises foo 9 0 5 HG H9 H0 H5) as [Hout _].
  destruct (index_outside_raises foo (-1) (-4) 5 HG H1 H4 H5) as [_ Hin].
  split_and!; [done..| | | |].
  - by apply Hout; lia.
  - by apply Hout; lia.
  - by destruct Hin as (H & _); [lia..|].
  - by destruct Hin as (_ & H & _); [lia..|].
Defined.

(** C6 as the specification states it fails: row -1 and column -4 are
    outside [0,9), yet [get_number] silently reads cell (8, 5) and
    [set_number] silently writes it. *)
Lemma negative_index_is_accepted :
  ¬ coord (-1) ∧ ¬ coord (-4)
  ∧ get_number foo (-1) (-4) = Ok 6
  ∧ get_number foo (-1) (-4) ≠ Raise IndexError
  ∧ ∃ G', set_number foo (-1) (-4) 7 = Ok G'
          ∧ get_number G' 8 5 = Ok 7
          ∧ set_number foo (-1) (-4) 7 ≠ Raise IndexError.
Proof.
  split_and!; [unfold coord; lia|unfold coord; lia|done|done|].
  eexists. split_and!; [by vm_compute|by vm_compute|done].
Qed.

(** ** Candidates *)

(** C4. When the cell at [(row, column)] holds [c > 0],
    [get_possibilities(row, column)] returns the one-element sequence [c]:
    never the empty sequence, never another digit. *)
Theorem get_possibilities_assigned G row column c :
  get_number G row column = Ok c → 0 < c →
  get_possibilities G row column = Ok [c].
Proof.
  intros Hget Hc. unfold get_possibilities.
  rewrite Hget, bind_Ok. by rewrite bool_decide_eq_true_2.
Qed.

Lemma get_possibilities_assigned_witness :
  get_number foo 3 4 = Ok 5 ∧ 0 < 5 ∧ get_possibilities foo 3 4 = Ok [5].
Proof.
  assert (get_number foo 3 4 = Ok 5) as Hget by reflexivity.
  assert (0 < 5) as Hc by lia.
  split_and!; [done..|]. exact (get_possibilities_assigned foo 3 4 5 Hget Hc).
Defined.

(** C2. When the cell at [(row, column)], a cell of the grid, holds 0,
    [get_possibilities(row, column)] returns in ascending order exactly the
    digits 1..9 that occur neither in the row, nor in the column, nor in the
    3x3 box with origin [(row // 3 * 3, column // 3 * 3)]; the result is
    empty exactly when no digit is left. *)
Theorem get_possibilities_unassigned G row column :
  wf_grid G → coord row → coord column → get_number G row column = Ok 0 →
  ∃ ps, get_possibilities G row column = Ok ps
    ∧ StronglySorted Z.lt ps
    ∧ (∀ d, d ∈ ps ↔
          1 ≤ d ≤ 9 ∧ ¬ in_row G row d ∧ ¬ in_column G column d
          ∧ ¬ in_box G row column d)
    ∧ (ps = [] ↔
          ¬ ∃ d, 1 ≤ d ≤ 9 ∧ ¬ in_row G row d ∧ ¬ in_column G column d
                 ∧ ¬ in_box G row column d).
Proof.
  intros HG Hr Hc Hget. rewrite get_number_cell in Hget by done.
  assert (¬ 0 < Spec.cell G row column) as Hu by (injection Hget; lia).
  exists (Spec.candidates G row column).
  assert (∀ d, d ∈ Spec.candidates G row column ↔
            1 ≤ d ≤ 9 ∧ ¬ in_row G row d ∧ ¬ in_column G column d
            ∧ ¬ in_box G row column d) as Hmem.
  { intros d. rewrite elem_of_candidates by done.
    by rewrite elem_of_row_values, elem_of_column_values, elem_of_box_values. }
  split_and!.
  - by apply get_possibilities_spec.
  - by apply candidates_ascending.
  - done.
  - split.
    + intros Hnil (d & Hd). apply Hmem in Hd. rewrite Hnil in Hd.
      by apply elem_of_nil in Hd.
    + intros Hnone. destruct (Spec.candidates G row column) as [|d l] eqn:Heq;
        [done|]. exfalso. apply Hnone. exists d. apply Hmem. by left.
Qed.

Lemma get_possibilities_unassigned_witness :
  wf_grid foo ∧ coord 0 ∧ coord 0 ∧ get_number foo 0 0 = Ok 0
  ∧ ∃ ps, get_possibilities foo 0 0 = Ok ps
    ∧ StronglySorted Z.lt ps
    ∧ (∀ d, d ∈ ps ↔
          1 ≤ d ≤ 9 ∧ ¬ in_row foo 0 d ∧ ¬ in_column foo 0 d
          ∧ ¬ in_box foo 0 0 d)
    ∧ (ps = [] ↔
          ¬ ∃ d, 1 ≤ d ≤ 9 ∧ ¬ in_row foo 0 d ∧ ¬ in_column foo 0 d
                 ∧ ¬ in_box foo 0 0 d).
Proof.
  assert (wf_grid foo) as HG by (apply (bool_decide_unpack _); by vm_compute).
  assert (coord 0) as H0 by (unfold coord; lia).
  assert (get_number foo 0 0 = Ok 0) as Hget by reflexivity.
  split_and!; [done..|].
  exact (get_possibilities_unassigned foo 0 0 HG H0 H0 Hget).
Defined.

(** ** Bulk replacement *)

Lemma set_grid_9x9 G items :
  set_grid G (Np.Nd [9; 9] items) = map (map Np.wrap8) (Np.rows 9 9 items).
Proof. done. Qed.

(** C5. An array whose shape is not 9x9, whatever its dimensions, leaves
    the grid as it is; a 9x9 array replaces the whole grid by its items (as
    int8), so that [get_grid] then returns a copy of an int8 input. *)
Theorem set_grid_shape G a :
  (Np.shape a ≠ [9; 9] → set_grid G a = G)
  ∧ (Np.shape a = [9; 9] →
       set_grid G a = map (map Np.wrap8) (Np.rows 9 9 (Np.items a))
       ∧ (length (Np.items a) = 81%nat → Forall Np.int8 (Np.items a) →
          wf_grid (set_grid G a) ∧ get_grid (set_grid G a) = a)).
Proof.
  split.
  - intros Hshape. unfold set_grid.
    destruct a as [shape items]. cbn [Np.shape] in *.
    destruct shape as [|n [|m [|k shape]]]; try done. cbn [length lookup].
    rewrite bool_decide_eq_true_2 by done. cbn [list_lookup].
    destruct (decide (n = 9)) as [->|Hn]; destruct (decide (m = 9)) as [->|Hm];
      try done.
    + rewrite bool_decide_eq_true_2 by done.
      by rewrite (bool_decide_eq_false_2 (Some m = Some 9)) by congruence.
    + by rewrite (bool_decide_eq_false_2 (Some n = Some 9)) by congruence.
    + by rewrite (bool_decide_eq_false_2 (Some n = Some 9)) by congruence.
  - intros Hshape. destruct a as [shape items].
    cbn [Np.shape Np.items] in *. subst shape.
    rewrite set_grid_9x9. split; [done|]. intros Hlen H8.
    assert (map (map Np.wrap8) (Np.rows 9 9 items) = Np.rows 9 9 items) as ->.
    { unfold Np.rows.
      pose proof (Forall_reshape _ _ (replicate 9 9%nat) H8) as Hall.
      induction Hall as [|line Q Hline HQ IH]; [done|].
      cbn [map]. f_equal; [|done].
      clear -Hline. induction Hline as [|v line Hv Hline IH]; [done|].
      cbn [map]. by rewrite wrap8_int8, IH. }
    assert (mjoin (Np.rows 9 9 items) = items) as Hjoin.
    { unfold Np.rows. apply join_reshape. by rewrite Hlen. }
    split.
    + split; [unfold Np.rows; by rewrite length_reshape|].
      unfold Np.rows. apply Forall_forall. intros line Hline.
      apply list_elem_of_lookup in Hline as [i Hi].
      pose proof (lookup_lt_Some _ _ _ Hi) as Hlt.
      rewrite length_reshape, length_replicate in Hlt.
      pose proof (Forall_reshape _ _ (replicate 9 9%nat) H8) as Hall.
      split; [|by apply (Forall_lookup_1 _ _ _ _ Hall Hi)].
      rewrite sublist_lookup_reshape in Hi by (done || lia).
      apply sublist_lookup_Some' in Hi as (-> & Hi).
      rewrite length_take, length_drop. lia.
    + unfold get_grid. by rewrite Hjoin.
Qed.

Lemma set_grid_shape_witness :
  Np.shape (Np.Nd [9; 8] (replicate 72 1)) ≠ [9; 9]
  ∧ set_grid foo (Np.Nd [9; 8] (replicate 72 1)) = foo
  ∧ set_grid foo (Np.Nd [81] (replicate 81 1)) = foo
  ∧ get_grid (set_grid foo (get_grid dead_end)) = get_grid dead_end.
Proof.
  assert (Np.shape (Np.Nd [9; 8] (replicate 72 1)) ≠ [9; 9]) as H1 by done.
  assert (Np.shape (Np.Nd [81] (replicate 81 1)) ≠ [9; 9]) as H2 by done.
  assert (Np.shape (get_grid dead_end) = [9; 9]) as H3 by done.
  assert (length (Np.items (get_grid dead_end)) = 81%nat) as H4 by done.
  assert (Forall Np.int8 (Np.items (get_grid dead_end))) as H5
    by (apply (bool_decide_unpack _); by vm_compute).
  split_and!; [done|..].
  - exact (proj1 (set_grid_shape foo _) H1).
  - exact (proj1 (set_grid_shape foo _) H2).
  - exact (proj2 (proj2 (proj2 (set_grid_shape foo _) H3) H4 H5)).
Defined.

(** ** Rendering *)

(** C8. The all-zero grid renders as 11 lines joined by newlines: nine data
    rows [???|???|???] (two bars, a question mark per cell) and the
    separator [---+---+---] after the third and after the sixth data row. *)
Theorem to_string_all_zero :
  to_string init
  = Ok (String.concat newline
          [ "???|???|???"; "???|???|???"; "???|???|???";
            "---+---+---";
            "???|???|???"; "???|???|???"; "???|???|???";
            "---+---+---";
            "???|???|???"; "???|???|???"; "???|???|???" ]%string).
Proof. by vm_compute. Qed.

(** ** Cell selection *)

(** C3. [find_most_constrained] scans the 81 cells row by row and returns,
    among the cells that are not solved (value 0 in the data model), the
    first in scan order whose number of candidates is least: no unsolved
    cell has fewer candidates, and every unsolved cell scanned before it has
    strictly more.  A cell with no candidate at all is eligible, so when
    some unsolved cell has none the selected cell has none.  When every cell
    is solved the result is [(-1, -1)]. *)
Theorem find_most_constrained_first_fewest G :
  wf_grid G →
  ∃ field, find_most_constrained G = Ok field
    ∧ ((∀ r c, coord r → coord c → is_solved G r c = Ok true) →
       field = (-1, -1))
    ∧ ((∃ r c, coord r ∧ coord c ∧ is_solved G r c = Ok false) →
       coord field.1 ∧ coord field.2
       ∧ is_solved G field.1 field.2 = Ok false
       ∧ (in_domain G → get_number G field.1 field.2 = Ok 0)
       ∧ ∃ ps, get_possibilities G field.1 field.2 = Ok ps
           ∧ (∀ r c qs, coord r → coord c → is_solved G r c = Ok false →
                get_possibilities G r c = Ok qs →
                (length ps ≤ length qs)%nat
                ∧ (scanned_before (r, c) field → (length ps < length qs)%nat)
                ∧ (qs = [] → ps = []))).
Proof.
  intros HG. exists (Spec.most_constrained G).
  split; [by apply find_most_constrained_spec|]. split.
  - intros Hall. apply most_constrained_sentinel.
    destruct (unassigned_cells G) as [|[r c] l] eqn:Hu; [done|].
    assert ((r, c) ∈ unassigned_cells G) as Hin by (rewrite Hu; by left).
    apply elem_of_unassigned_cells in Hin as (Hr & Hc & Ha).
    specialize (Hall r c Hr Hc). rewrite is_solved_assigned in Hall by done.
    congruence.
  - intros (r & c & Hr & Hc & Hsol).
    rewrite is_solved_assigned in Hsol by done.
    assert (unassigned_cells G ≠ []) as Hne.
    { intros He.
      assert ((r, c) ∈ unassigned_cells G) as Hin.
      { apply elem_of_unassigned_cells. split_and!; [done..|congruence]. }
      rewrite He in Hin. by apply elem_of_nil in Hin. }
    destruct (most_constrained_first_min G Hne) as [Hin Hmin].
    destruct (Spec.most_constrained G) as [r0 c0] eqn:Hmc.
    apply elem_of_unassigned_cells in Hin as (Hr0 & Hc0 & Ha0). cbn [fst snd].
    split_and!; [done|done|by rewrite is_solved_assigned, Ha0| |].
    + intros Hd. rewrite get_number_cell by done. f_equal.
      pose proof (in_domain_cell G r0 c0 Hd).
      unfold Spec.assigned in Ha0. apply bool_decide_eq_false_1 in Ha0.
      cbn [fst snd] in Ha0. lia.
    + exists (Spec.candidates G r0 c0).
      split; [by apply get_possibilities_spec|].
      intros r' c' qs Hr' Hc' Hsol' Hqs.
      rewrite is_solved_assigned in Hsol' by done.
      rewrite get_possibilities_spec in Hqs by done.
      injection Hqs as <-.
      destruct (Hmin (r', c')) as [Hle Hlt].
      { apply elem_of_unassigned_cells. split_and!; [done..|congruence]. }
      unfold Spec.count in Hle, Hlt. cbn [fst snd] in Hle, Hlt.
      split_and!; [done|done|].
      intros Hnil. rewrite Hnil in Hle. cbn [length] in Hle.
      destruct (Spec.candidates G r0 c0); [done|cbn [length] in Hle; lia].
Qed.

Lemma find_most_constrained_first_fewest_witness :
  wf_grid dead_end
  ∧ find_most_constrained dead_end = Ok (0, 0)
  ∧ get_possibilities dead_end 0 0 = Ok []
  ∧ find_most_constrained foo = Ok (6, 4)
  ∧ ∃ field, find_most_constrained dead_end = Ok field
    ∧ ((∀ r c, coord r → coord c → is_solved dead_end r c = Ok true) →
       field = (-1, -1))
    ∧ ((∃ r c, coord r ∧ coord c ∧ is_solved dead_end r c = Ok false) →
       coord field.1 ∧ coord field.2
       ∧ is_solved dead_end field.1 field.2 = Ok false
       ∧ (in_domain dead_end → get_number dead_end field.1 field.2 = Ok 0)
       ∧ ∃ ps, get_possibilities dead_end field.1 field.2 = Ok ps
           ∧ (∀ r c qs, coord r → coord c →
                is_solved dead_end r c = Ok false →
                get_possibilities dead_end r c = Ok qs →
                (length ps ≤ length qs)%nat
                ∧ (scanned_before (r, c) field → (length ps < length qs)%nat)
                ∧ (qs = [] → ps = []))).
Proof.
  assert (wf_grid dead_end) as HG
    by (apply (bool_decide_unpack _); by vm_compute).
  split_and!; [done|by vm_compute|by vm_compute|by vm_compute|].
  exact (find_most_constrained_first_fewest dead_end HG).
Defined.

(** ** The search *)

(** C1. On every grid [solve] performs the rounds of the procedure of the
    specification (section 4.3): with the same number of rounds allowed,
    it ends exactly when that procedure ends and leaves its live grid.
    The frontier starts with a snapshot of the grid; a round takes the
    most-constrained cell of the live grid and its candidates, pushes one
    snapshot per candidate in ascending order at the back, pops the front
    and makes it the live grid.  The search ends completed, or exhausted
    when a pop has emptied the frontier; then the live grid is the snapshot
    popped last, and it is not completed. *)
Theorem solve_is_breadth_first_search fuel G :
  wf_grid G →
  solve fuel G = (λ res, Ok (Spec.live res)) <$> Spec.solve fuel G
  ∧ ∀ res, Spec.solve fuel G = Some res →
      match Spec.how res with
      | Spec.Completed => is_completed (Spec.live res) = Ok true
      | Spec.Exhausted =>
          is_completed (Spec.live res) = Ok false
          ∧ Spec.last_popped res = Some (Spec.live res)
      end.
Proof.
  intros HG. split; [by apply solve_spec|].
  intros res Hres. unfold Spec.solve in Hres.
  assert (wf_grid (Spec.live res)) as Hwf.
  { apply (loop_wf _ _ _ _ _ HG) in Hres; [done|by constructor]. }
  rewrite is_completed_spec by done.
  pose proof (loop_outcome _ _ _ _ _ Hres) as Hout.
  destruct (Spec.how res).
  - f_equal. apply Hout. by left.
  - destruct Hout as [Hc Hp]; [by left|]. by rewrite Hc.
Qed.

Lemma solve_is_breadth_first_search_witness :
  wf_grid dead_end
  ∧ Spec.solve 1 dead_end
    = Some (Spec.Final dead_end Spec.Exhausted (Some dead_end))
  ∧ solve 1 dead_end = Some (Ok dead_end)
  ∧ solve 1 dead_end
    = (λ res, Ok (Spec.live res)) <$> Spec.solve 1 dead_end
  ∧ ∀ res, Spec.solve 1 dead_end = Some res →
      match Spec.how res with
      | Spec.Completed => is_completed (Spec.live res) = Ok true
      | Spec.Exhausted =>
          is_completed (Spec.live res) = Ok false
          ∧ Spec.last_popped res = Some (Spec.live res)
      end.
Proof.
  assert (wf_grid dead_end) as HG
    by (apply (bool_decide_unpack _); by vm_compute).
  split_and!; [done|by vm_compute|by vm_compute|..].
  - exact (proj1 (solve_is_breadth_first_search 1 dead_end HG)).
  - exact (proj2 (solve_is_breadth_first_search 1 dead_end HG)).
Defined.

(** C9. [solve] terminates on every grid.  A pushed snapshot has one
    unassigned cell less than the grid it comes from, a round pushes at
    most nine snapshots and pops one, so [rounds_bound] falls with every
    round: that many rounds, or any larger number, bring [solve] to its end
    without an exception, always with the same grid. *)
Theorem solve_terminates G :
  wf_grid G →
  ∃ G', ∀ fuel, (rounds_bound G [G] ≤ fuel)%nat →
          solve fuel G = Some (Ok G').
Proof.
  intros HG.
  destruct (loop_terminates (rounds_bound G [G]) G [G] None HG) as [res Hres];
    [by constructor|done|].
  exists (Spec.live res). intros fuel Hfuel.
  rewrite solve_spec by done. unfold Spec.solve.
  by rewrite (loop_more_fuel _ fuel _ _ _ _ Hres Hfuel).
Qed.

Lemma solve_terminates_witness :
  wf_grid nearly_done
  ∧ ∃ G', ∀ fuel, (rounds_bound nearly_done [nearly_done] ≤ fuel)%nat →
            solve fuel nearly_done = Some (Ok G').
Proof.
  assert (wf_grid nearly_done) as HG
    by (apply (bool_decide_unpack _); by vm_compute).
  split; [done|]. exact (solve_terminates nearly_done HG).
Defined.

(** C10. [solve] never changes a cell that was assigned when it was
    called: such a cell holds the same number when [solve] returns, however
    the search ended.  Assigned means a number above 0, which in the data
    model (cells in 0..9) is any number but 0. *)
Theorem solve_keeps_assigned fuel G G' row column v :
  wf_grid G → coord row → coord column →
  solve fuel G = Some (Ok G') →
  get_number G row column = Ok v →
  (0 < v → get_number G' row column = Ok v)
  ∧ (in_domain G → v ≠ 0 → get_number G' row column = Ok v).
Proof.
  intros HG Hr Hc Hsolve Hget.
  rewrite solve_spec in Hsolve by done. unfold Spec.solve in Hsolve.
  destruct (Spec.loop fuel G [G] None) as [res|] eqn:Hres; [|done].
  injection Hsolve as <-.
  assert (wf_grid (Spec.live res)) as Hwf.
  { apply (loop_wf _ _ _ _ _ HG) in Hres; [done|by constructor]. }
  assert (extends G (Spec.live res)) as Hext.
  { apply (loop_extends G _ _ _ _ _ HG) in Hres;
      [done|by constructor|apply extends_refl|].
    constructor; [apply extends_refl|constructor]. }
  rewrite get_number_cell in Hget by done. injection Hget as <-.
  assert (0 < Spec.cell G row column →
          get_number (Spec.live res) row column = Ok (Spec.cell G row column))
    as Hkeep.
  { intros Hpos. rewrite get_number_cell by done. f_equal. by apply Hext. }
  split; [done|].
  intros Hd Hne. apply Hkeep. pose proof (in_domain_cell G row column Hd). lia.
Qed.

Lemma solve_keeps_assigned_witness :
  wf_grid nearly_done ∧ coord 8 ∧ coord 5
  ∧ solve 6 nearly_done
    = Some (Ok (Spec.set (Spec.set (Spec.set nearly_done 8 6 1) 8 7 7) 8 8 9))
  ∧ get_number nearly_done 8 5 = Ok 6
  ∧ (0 < 6 →
     get_number (Spec.set (Spec.set (Spec.set nearly_done 8 6 1) 8 7 7) 8 8 9)
       8 5 = Ok 6)
  ∧ (in_domain nearly_done → 6 ≠ 0 →
     get_number (Spec.set (Spec.set (Spec.set nearly_done 8 6 1) 8 7 7) 8 8 9)
       8 5 = Ok 6).
Proof.
  assert (wf_grid nearly_done) as HG
    by (apply (bool_decide_unpack _); by vm_compute).
  assert (coord 8) as Hr by (unfold coord; lia).
  assert (coord 5) as Hc by (unfold coord; lia).
  assert (solve 6 nearly_done
          = Some (Ok (Spec.set (Spec.set (Spec.set nearly_done 8 6 1) 8 7 7)
                        8 8 9))) as Hsolve by (by vm_compute).
  assert (get_number nearly_done 8 5 = Ok 6) as Hget by reflexivity.
  split_and!; [done..| |].
  - exact (proj1 (solve_keeps_assigned 6 nearly_done _ 8 5 6
                    HG Hr Hc Hsolve Hget)).
  - exact (proj2 (solve_keeps_assigned 6 nearly_done _ 8 5 6
                    HG Hr Hc Hsolve Hget)).
Defined.

(** * Further properties *)

(** ** Validity, said with cells *)

Lemma no_conflict_cells G :
  wf_grid G →
  no_conflict G ↔
  ∀ r1 c1 r2 c2, coord r1 → coord c1 → coord r2 → coord c2 →
    (r1, c1) ≠ (r2, c2) → same_unit r1 c1 r2 c2 →
    0 < Spec.cell G r1 c1 → Spec.cell G r2 c2 ≠ Spec.cell G r1 c1.
Proof.
  intros HG. unfold no_conflict. split.
  - intros H r1 c1 r2 c2 Hr1 Hc1 Hr2 Hc2 Hne Hu Hpos Heq.
    apply (H r1 c1 r2 c2 (Spec.cell G r1 c1)); try done.
    + by apply get_number_cell.
    + rewrite get_number_cell by done. by f_equal.
  - intros H r1 c1 r2 c2 v Hr1 Hc1 Hr2 Hc2 Hne Hu Hget Hpos Hget'.
    rewrite get_number_cell in Hget, Hget' by done.
    injection Hget as <-. injection Hget' as Heq.
    by apply (H r1 c1 r2 c2).
Qed.

Lemma keeps_extends G G' :
  wf_grid G → wf_grid G' → keeps G G' ↔ extends G G'.
Proof.
  intros HG HG'. unfold keeps, extends. split.
  - intros H r c Hr Hc Hpos.
    specialize (H r c _ Hr Hc (get_number_cell G r c HG Hr Hc) Hpos).
    rewrite get_number_cell in H by done. by injection H.
  - intros H r c v Hr Hc Hget Hpos.
    rewrite get_number_cell in Hget |- * by done. injection Hget as <-.
    f_equal. by apply H.
Qed.

Lemma no_conflictb_sound G :
  wf_grid G → no_conflictb G = true → no_conflict G.
Proof.
  intros HG Hb. apply no_conflict_cells; [done|].
  intros r1 c1 r2 c2 Hr1 Hc1 Hr2 Hc2 Hne Hu Hpos Heq.
  unfold no_conflictb in Hb. rewrite forallb_forall in Hb.
  specialize (Hb (r1, c1)). rewrite forallb_forall in Hb.
  assert (In (r1, c1) Spec.cells) as H1
    by by apply list_elem_of_In, elem_of_cells.
  assert (In (r2, c2) Spec.cells) as H2
    by by apply list_elem_of_In, elem_of_cells.
  specialize (Hb H1 (r2, c2) H2). cbn [fst snd] in Hb.
  rewrite (bool_decide_eq_false_2 ((r1, c1) = (r2, c2))) in Hb by done.
  rewrite (bool_decide_eq_true_2 (same_unit _ _ _ _)) in Hb by done.
  rewrite (bool_decide_eq_true_2 (0 < _)) in Hb by done.
  by rewrite (bool_decide_eq_true_2 (Spec.cell G r2 c2 = _)) in Hb by done.
Qed.

Lemma solutionb_sound S : solutionb S = true → solution S.
Proof.
  unfold solutionb. rewrite !andb_true_iff. intros [[HS Hnc] Hd].
  apply bool_decide_eq_true_1 in HS. split_and!; [done|by apply no_conflictb_sound|].
  intros r c Hr Hc. exists (Spec.cell S r c). split; [by apply get_number_cell|].
  rewrite forallb_forall in Hd.
  specialize (Hd (r, c)). cbn [fst snd] in Hd.
  eapply bool_decide_eq_true_1, Hd, list_elem_of_In, elem_of_cells. done.
Qed.

(** ** A candidate never conflicts *)

Lemma unit_values G r c r' c' :
  coord r → coord c → coord r' → coord c' → same_unit r c r' c' →
  Spec.cell G r' c' ∈ Spec.row_values G r
  ∨ Spec.cell G r' c' ∈ Spec.column_values G c
  ∨ Spec.cell G r' c' ∈ Spec.box_values G r c.
Proof.
  intros Hr Hc Hr' Hc' [->|[->|[Hbr Hbc]]].
  - left. unfold Spec.row_values. apply list_elem_of_fmap.
    exists c'. split; [done|by apply elem_of_range].
  - right. left. unfold Spec.column_values. apply list_elem_of_fmap.
    exists r'. split; [done|by apply elem_of_range].
  - right. right. unfold Spec.box_values.
    apply list_elem_of_bind. exists r'. split.
    + apply list_elem_of_bind. exists c'. split; [by left|].
      apply elem_of_range. rewrite Hbc.
      pose proof (Z.div_mod c' 3). pose proof (Z.mod_pos_bound c' 3). lia.
    + apply elem_of_range. rewrite Hbr.
      pose proof (Z.div_mod r' 3). pose proof (Z.mod_pos_bound r' 3). lia.
Qed.

Lemma same_unit_sym r1 c1 r2 c2 : same_unit r1 c1 r2 c2 → same_unit r2 c2 r1 c1.
Proof. unfold same_unit. intuition congruence. Qed.

Lemma no_conflict_set G r c d :
  wf_grid G → coord r → coord c → ¬ 0 < Spec.cell G r c →
  d ∈ Spec.candidates G r c → no_conflict G →
  no_conflict (Spec.set G r c d).
Proof.
  intros HG Hr Hc Hu Hd Hnc.
  apply elem_of_candidates in Hd as (Hdig & Hrow & Hcol & Hbox); [|done].
  assert (wf_grid (Spec.set G r c d)) as HG'.
  { apply wf_grid_set; [done|unfold Np.int8; lia]. }
  rewrite no_conflict_cells in Hnc |- * by done.
  assert (∀ r' c', coord r' → coord c' → same_unit r c r' c' →
                   Spec.cell G r' c' ≠ d) as Hfree.
  { intros r' c' Hr' Hc' Hsu Heq.
    destruct (unit_values G r c r' c' Hr Hc Hr' Hc' Hsu) as [H|[H|H]];
      rewrite Heq in H; tauto. }
  intros r1 c1 r2 c2 Hr1 Hc1 Hr2 Hc2 Hne Hsu Hpos.
  destruct (decide ((r1, c1) = (r, c))) as [H1|H1];
    destruct (decide ((r2, c2) = (r, c))) as [H2|H2].
  - congruence.
  - injection H1 as -> ->. rewrite cell_set_eq by done.
    rewrite cell_set_ne by (unfold coord in *; lia || done).
    by apply Hfree.
  - injection H2 as -> ->. rewrite cell_set_eq by done.
    rewrite cell_set_ne by (unfold coord in *; lia || done).
    rewrite cell_set_ne in Hpos by (unfold coord in *; lia || done).
    intros Heq. apply (Hfree r1 c1); [done..|by apply same_unit_sym|done].
  - rewrite !cell_set_ne by (unfold coord in *; lia || done).
    rewrite cell_set_ne in Hpos by (unfold coord in *; lia || done).
    by apply Hnc.
Qed.

(** X1. Writing a candidate of an unassigned cell into that cell never
    creates a conflict: if no number is assigned twice in a row, a column
    or a box, this still holds after [set_number] with any value that
    [get_possibilities] returned for the cell. *)
Theorem candidate_keeps_no_conflict G row column ps d :
  wf_grid G → coord row → coord column → no_conflict G →
  get_number G row column = Ok 0 →
  get_possibilities G row column = Ok ps → d ∈ ps →
  ∃ G', set_number G row column d = Ok G' ∧ no_conflict G'.
Proof.
  intros HG Hr Hc Hnc Hget Hps Hd.
  rewrite get_number_cell in Hget by done. injection Hget as Hzero.
  rewrite get_possibilities_spec in Hps by done. injection Hps as <-.
  assert (¬ 0 < Spec.cell G row column) as Hu by lia.
  exists (Spec.set G row column d). split.
  - rewrite set_number_set by done. f_equal. rewrite wrap8_int8; [done|].
    apply candidates_digit in Hd; [|done]. unfold Np.int8. lia.
  - by apply no_conflict_set.
Qed.

Lemma candidate_keeps_no_conflict_witness :
  wf_grid nearly_done ∧ coord 8 ∧ coord 6 ∧ no_conflict nearly_done
  ∧ get_number nearly_done 8 6 = Ok 0
  ∧ get_possibilities nearly_done 8 6 = Ok [1] ∧ 1 ∈ [1]
  ∧ ∃ G', set_number nearly_done 8 6 1 = Ok G' ∧ no_conflict G'.
Proof.
  assert (wf_grid nearly_done) as HG
    by (apply (bool_decide_unpack _); by vm_compute).
  assert (coord 8) as Hr by (unfold coord; lia).
  assert (coord 6) as Hc by (unfold coord; lia).
  assert (no_conflict nearly_done) as Hnc
    by (apply no_conflictb_sound; [done|by vm_compute]).
  assert (get_number nearly_done 8 6 = Ok 0) as Hget by reflexivity.
  assert (get_possibilities nearly_done 8 6 = Ok [1]) as Hps by (by vm_compute).
  assert (1 ∈ [1]) as Hd by (by left).
  split_and!; [done..|].
  exact (candidate_keeps_no_conflict nearly_done 8 6 [1] 1
           HG Hr Hc Hnc Hget Hps Hd).
Defined.

(** ** The search is sound *)

Lemma no_conflict_children G :
  wf_grid G → Spec.completed G = false → no_conflict G →
  Forall no_conflict (children G).
Proof.
  intros HG Hc Hnc.
  destruct (most_constrained_unassigned G Hc) as (Hr & Hcc & Hu).
  unfold children. apply Forall_fmap, Forall_forall. intros d Hd. cbn.
  by apply no_conflict_set.
Qed.

Lemma loop_no_conflict n G F popped res :
  wf_grid G → Forall wf_grid F → no_conflict G → Forall no_conflict F →
  Spec.loop n G F popped = Some res → no_conflict (Spec.live res).
Proof.
  intros HG HF HnG HnF Hloop.
  apply (loop_invariant (λ X, wf_grid X ∧ no_conflict X) n G F popped res).
  - by intros X [? _].
  - intros X [HX HnX] Hc.
    pose proof (wf_children X HX Hc) as H1.
    pose proof (no_conflict_children X HX Hc HnX) as H2.
    rewrite Forall_forall in H1, H2 |- *. intros Y HY. split; auto.
  - done.
  - rewrite Forall_forall in HF, HnF |- *. intros Y HY. split; auto.
  - done.
Qed.

(** X2. [solve] never creates a conflict: started on a grid in which no
    number is assigned twice in a row, a column or a box, it leaves such a
    grid, of the same shape, whether the search ended completed or
    exhausted. *)
Theorem solve_keeps_no_conflict fuel G G' :
  wf_grid G → no_conflict G → solve fuel G = Some (Ok G') →
  wf_grid G' ∧ no_conflict G'.
Proof.
  intros HG Hnc Hsolve.
  rewrite solve_spec in Hsolve by done. unfold Spec.solve in Hsolve.
  destruct (Spec.loop fuel G [G] None) as [res|] eqn:Hres; [|done].
  injection Hsolve as <-. split.
  - apply (loop_wf _ _ _ _ _ HG) in Hres; [done|by constructor].
  - apply (loop_no_conflict _ _ _ _ _ HG) in Hres; [done|by constructor|done|].
    by constructor.
Qed.

Lemma solve_keeps_no_conflict_witness :
  wf_grid nearly_done ∧ no_conflict nearly_done
  ∧ solve 6 nearly_done = Some (Ok all_done)
  ∧ wf_grid all_done ∧ no_conflict all_done.
Proof.
  assert (wf_grid nearly_done) as HG
    by (apply (bool_decide_unpack _); by vm_compute).
  assert (no_conflict nearly_done) as Hnc
    by (apply no_conflictb_sound; [done|by vm_compute]).
  assert (solve 6 nearly_done = Some (Ok all_done)) as Hsolve
    by (by vm_compute).
  split_and!; [done..| |].
  - exact (proj1 (solve_keeps_no_conflict 6 nearly_done all_done HG Hnc Hsolve)).
  - exact (proj2 (solve_keeps_no_conflict 6 nearly_done all_done HG Hnc Hsolve)).
Defined.

(** ** The search is complete *)

Lemma box_div i j : i `div` 3 * 3 ≤ j < i `div` 3 * 3 + 3 → i `div` 3 = j `div` 3.
Proof.
  intros Hj. apply (Z.div_unique j 3 (i `div` 3) (j - 3 * (i `div` 3))); lia.
Qed.

Section completeness.

Variable S : grid.
Hypothesis S_digits : ∀ r c, coord r → coord c → 1 ≤ Spec.cell S r c ≤ 9.
Hypothesis S_valid :
  ∀ r1 c1 r2 c2, coord r1 → coord c1 → coord r2 → coord c2 →
    (r1, c1) ≠ (r2, c2) → same_unit r1 c1 r2 c2 →
    Spec.cell S r2 c2 ≠ Spec.cell S r1 c1.

(** A grid that [S] extends has a child that [S] extends: the number [S]
    puts in the most-constrained cell is one of its candidates. *)
Lemma extends_some_child L :
  wf_grid L → Spec.completed L = false → extends L S →
  ∃ k Z, children L !! k = Some Z ∧ extends Z S.
Proof using S_digits S_valid.
  intros HL Hc Hext.
  destruct (most_constrained_unassigned L Hc) as (Hr & Hcc & Hu).
  unfold children. destruct (Spec.most_constrained L) as [r c].
  cbn [fst snd] in *.
  assert (∀ r' c', coord r' → coord c' → same_unit r c r' c' →
                   Spec.cell L r' c' ≠ Spec.cell S r c) as Hfree.
  { intros r' c' Hr' Hc' Hsu Heq.
    pose proof (S_digits r c Hr Hcc) as Hd.
    assert ((r, c) ≠ (r', c')) as Hne.
    { intros Hp. injection Hp as <- <-. lia. }
    apply (S_valid r c r' c'); try done.
    rewrite (Hext r' c') by (done || lia). done. }
  assert (Spec.cell S r c ∈ Spec.candidates L r c) as Hin.
  { apply elem_of_candidates; [done|]. split; [by apply S_digits|].
    split_and!.
    - unfold Spec.row_values. intros (c' & Heq & Hc')%list_elem_of_fmap.
      apply elem_of_range in Hc'.
      apply (Hfree r c'); [done|done|by left|done].
    - unfold Spec.column_values. intros (r' & Heq & Hr')%list_elem_of_fmap.
      apply elem_of_range in Hr'.
      apply (Hfree r' c); [done|done|right; by left|done].
    - intros Hbox. apply elem_of_box_values in Hbox; [|done..].
      destruct Hbox as (r' & c' & Hr' & Hc' & Hget).
      assert (coord r') as Hcr by by apply (box_coord r).
      assert (coord c') as Hcc' by by apply (box_coord c).
      rewrite get_number_cell in Hget by done. injection Hget as Hget.
      apply (Hfree r' c'); [done|done| |done].
      right. right. split; by apply box_div. }
  apply list_elem_of_lookup in Hin as [k Hk].
  exists k, (Spec.set L r c (Spec.cell S r c)). split.
  - by rewrite list_lookup_fmap, Hk.
  - intros r' c' Hr' Hc' Hpos.
    destruct (decide ((r', c') = (r, c))) as [Hp|Hp].
    + injection Hp as -> ->. by rewrite cell_set_eq.
    + rewrite cell_set_ne in Hpos |- * by (unfold coord in *; lia || done).
      by apply Hext.
Qed.

End completeness.

Section completeness_loop.

Variable S : grid.
Hypothesis S_digits : ∀ r c, coord r → coord c → 1 ≤ Spec.cell S r c ≤ 9.
Hypothesis S_valid :
  ∀ r1 c1 r2 c2, coord r1 → coord c1 → coord r2 → coord c2 →
    (r1, c1) ≠ (r2, c2) → same_unit r1 c1 r2 c2 →
    Spec.cell S r2 c2 ≠ Spec.cell S r1 c1.

(** While some queued snapshot leads to [S], and after the next push two
    do, the search cannot run dry: it ends on a completed grid. *)
Lemma loop_completes n L Q popped res :
  wf_grid L → Forall wf_grid Q →
  (∃ k X, Q !! k = Some X ∧ extends X S) →
  (Spec.completed L = false → covered_twice S (Q ++ children L)) →
  Spec.loop n L Q popped = Some res →
  Spec.completed (Spec.live res) = true.
Proof using S_digits S_valid.
  revert L Q popped.
  induction n as [|n IH]; intros L Q popped HL HQ Hone Htwo Hloop.
  - destruct (Spec.completed L) eqn:Hc.
    { rewrite loop_exit_completed in Hloop by done. by inversion Hloop. }
    destruct Q as [|X Q].
    { by destruct Hone as (k & X & Hk & _). }
    by rewrite loop_out_of_fuel in Hloop.
  - destruct (Spec.completed L) eqn:Hc.
    { rewrite loop_exit_completed in Hloop by done. by inversion Hloop. }
    destruct Q as [|X Q].
    { by destruct Hone as (k & X & Hk & _). }
    rewrite (loop_round n L (X :: Q) popped X (Q ++ children L)) in Hloop
      by done.
    apply Forall_cons in HQ as [HX HQ].
    assert (Forall wf_grid (Q ++ children L)) as Hwf.
    { apply Forall_app. split; [done|by apply wf_children]. }
    destruct (Htwo eq_refl) as (i & j & A & B & Hij & Hi & Hj & HA & HB).
    apply (IH X (Q ++ children L) (Some X)); try done.
    + destruct j as [|j]; [lia|]. by exists j, B.
    + intros HcX. destruct i as [|i].
      * cbn in Hi. injection Hi as <-.
        destruct (extends_some_child S S_digits S_valid X HX HcX HA)
          as (k & Z & Hk & HZ).
        destruct j as [|j]; [lia|]. cbn in Hj.
        exists j, (length (Q ++ children L) + k)%nat, B, Z.
        split_and!; try done.
        -- apply lookup_lt_Some in Hj. lia.
        -- by apply lookup_app_l_Some.
        -- rewrite lookup_app_r by lia.
           by replace (length (Q ++ children L) + k
                       - length (Q ++ children L))%nat with k by lia.
      * destruct j as [|j]; [lia|]. cbn in Hi, Hj.
        exists i, j, A, B. split_and!; try done; [lia|..];
          by apply lookup_app_l_Some.
Qed.

End completeness_loop.

Lemma keepsb_sound G G' :
  wf_grid G → wf_grid G' → keepsb G G' = true → keeps G G'.
Proof.
  intros HG HG' Hb. apply keeps_extends; [done..|].
  intros r c Hr Hc Hpos. unfold keepsb in Hb. rewrite forallb_forall in Hb.
  assert (In (r, c) Spec.cells) as Hin
    by by apply list_elem_of_In, elem_of_cells.
  specialize (Hb (r, c) Hin). cbn [fst snd] in Hb.
  rewrite (bool_decide_eq_true_2 (0 < _)) in Hb by done.
  by apply bool_decide_eq_true_1 in Hb.
Qed.

Lemma solution_cells S :
  solution S →
  (∀ r c, coord r → coord c → 1 ≤ Spec.cell S r c ≤ 9)
  ∧ (∀ r1 c1 r2 c2, coord r1 → coord c1 → coord r2 → coord c2 →
       (r1, c1) ≠ (r2, c2) → same_unit r1 c1 r2 c2 →
       Spec.cell S r2 c2 ≠ Spec.cell S r1 c1).
Proof.
  intros (HS & Hnc & Hd).
  assert (∀ r c, coord r → coord c → 1 ≤ Spec.cell S r c ≤ 9) as Hdig.
  { intros r c Hr Hc. destruct (Hd r c Hr Hc) as (v & Hget & Hv).
    rewrite get_number_cell in Hget by done. by injection Hget as ->. }
  split; [done|]. rewrite no_conflict_cells in Hnc by done.
  intros r1 c1 r2 c2 Hr1 Hc1 Hr2 Hc2 Hne Hsu.
  apply Hnc; try done. specialize (Hdig r1 c1 Hr1 Hc1). lia.
Qed.

Lemma extends_no_conflict G S :
  wf_grid G → solution S → extends G S → no_conflict G.
Proof.
  intros HG HS Hext. destruct (solution_cells S HS) as [_ Hvalid].
  apply no_conflict_cells; [done|].
  intros r1 c1 r2 c2 Hr1 Hc1 Hr2 Hc2 Hne Hsu Hpos Heq.
  apply (Hvalid r1 c1 r2 c2); try done.
  rewrite (Hext r1 c1), (Hext r2 c2) by (done || lia). done.
Qed.

Lemma loop_at_most_9 n G F popped res :
  wf_grid G → Forall wf_grid F →
  (∀ r c, coord r → coord c → Spec.cell G r c ≤ 9) →
  Forall (λ X, ∀ r c, coord r → coord c → Spec.cell X r c ≤ 9) F →
  Spec.loop n G F popped = Some res →
  ∀ r c, coord r → coord c → Spec.cell (Spec.live res) r c ≤ 9.
Proof.
  intros HG HF H9 HF9 Hloop.
  apply (loop_invariant
           (λ X, wf_grid X ∧ ∀ r c, coord r → coord c → Spec.cell X r c ≤ 9)
           n G F popped res).
  - by intros X [? _].
  - intros X [HX HX9] Hc.
    pose proof (wf_children X HX Hc) as H1.
    rewrite Forall_forall in H1 |- *. intros Y HY. split; [auto|].
    destruct (most_constrained_unassigned X Hc) as (Hr & Hcc & Hu).
    unfold children in HY. apply list_elem_of_fmap in HY as (d & -> & Hd).
    apply candidates_digit in Hd; [|done].
    intros r c Hr' Hc'.
    destruct (decide ((r, c) = ((Spec.most_constrained X).1,
                                (Spec.most_constrained X).2))) as [Hp|Hp].
    + injection Hp as -> ->. rewrite cell_set_eq by done. lia.
    + rewrite cell_set_ne by (unfold coord in *; lia || done). by apply HX9.
  - done.
  - rewrite Forall_forall in HF, HF9 |- *. intros Y HY. split; auto.
  - done.
Qed.

Lemma spec_solve_completes n G S res :
  wf_grid G → solution S → extends G S →
  Spec.loop n G [G] None = Some res →
  Spec.completed (Spec.live res) = true.
Proof.
  intros HG HS Hext Hloop. destruct (solution_cells S HS) as [Hdig Hvalid].
  apply (loop_completes S Hdig Hvalid n G [G] None res); try done.
  - by constructor.
  - by exists 0%nat, G.
  - intros Hc.
    destruct (extends_some_child S Hdig Hvalid G HG Hc Hext)
      as (k & Z & Hk & HZ).
    exists 0%nat, (Datatypes.S k), G, Z. split_and!; try done. lia.
Qed.

Lemma spec_solve_solution n G S res :
  wf_grid G → solution S → extends G S →
  Spec.loop n G [G] None = Some res →
  solution (Spec.live res) ∧ extends G (Spec.live res).
Proof.
  intros HG HS Hext Hloop. destruct (solution_cells S HS) as [Hdig _].
  assert (wf_grid (Spec.live res)) as Hwf.
  { apply (loop_wf _ _ _ _ _ HG) in Hloop; [done|by constructor]. }
  pose proof (extends_no_conflict G S HG HS Hext) as Hnc.
  assert (∀ r c, coord r → coord c → Spec.cell G r c ≤ 9) as H9.
  { intros r c Hr Hc. destruct (decide (0 < Spec.cell G r c)) as [Hpos|]; [|lia].
    rewrite <- (Hext r c) by done. by apply Hdig. }
  split; [|apply (loop_extends G _ _ _ _ _ HG) in Hloop;
            [done|by constructor|apply extends_refl|]; constructor;
            [apply extends_refl|constructor]].
  split_and!; [done| |].
  - apply (loop_no_conflict _ _ _ _ _ HG) in Hloop; [done|by constructor|done|].
    by constructor.
  - intros r c Hr Hc. exists (Spec.cell (Spec.live res) r c).
    split; [by apply get_number_cell|].
    pose proof (spec_solve_completes n G S res HG HS Hext Hloop) as Hall.
    rewrite completed_assigned in Hall. specialize (Hall r c Hr Hc).
    assert (Spec.cell (Spec.live res) r c ≤ 9); [|lia].
    apply (loop_at_most_9 n G [G] None res); try done; by constructor.
Qed.

(** X3. [solve] finds a solution whenever there is one.  If some filled
    grid that obeys the rules holds every number assigned in [G], then
    [solve] ends ([rounds_bound] rounds suffice, more change nothing)
    without an exception on a grid that is itself such a solution of [G]:
    9x9, every cell a digit 1..9, no digit twice in a row, column or box,
    every number assigned in [G] kept. *)
Theorem solve_finds_solution G S :
  wf_grid G → solution S → keeps G S →
  ∃ G', (∀ fuel, (rounds_bound G [G] ≤ fuel)%nat →
           solve fuel G = Some (Ok G'))
        ∧ is_completed G' = Ok true ∧ solution G' ∧ keeps G G'.
Proof.
  intros HG HS Hkeeps.
  assert (wf_grid S) as HwS by by destruct HS.
  apply keeps_extends in Hkeeps; [|done..].
  destruct (loop_terminates (rounds_bound G [G]) G [G] None HG) as [res Hres];
    [by constructor|done|].
  destruct (spec_solve_solution _ G S res HG HS Hkeeps Hres) as [Hsol Hext].
  assert (wf_grid (Spec.live res)) as Hwf by by destruct Hsol.
  exists (Spec.live res). split_and!; [|..|done|by apply keeps_extends].
  - intros fuel Hfuel. rewrite solve_spec by done. unfold Spec.solve.
    by rewrite (loop_more_fuel _ fuel _ _ _ _ Hres Hfuel).
  - rewrite is_completed_spec by done. f_equal.
    by apply (spec_solve_completes (rounds_bound G [G]) G S res).
Qed.

Lemma solve_finds_solution_witness :
  wf_grid nearly_done ∧ solution all_done ∧ keeps nearly_done all_done
  ∧ ∃ G', (∀ fuel, (rounds_bound nearly_done [nearly_done] ≤ fuel)%nat →
             solve fuel nearly_done = Some (Ok G'))
          ∧ is_completed G' = Ok true ∧ solution G' ∧ keeps nearly_done G'.
Proof.
  assert (wf_grid nearly_done) as HG
    by (apply (bool_decide_unpack _); by vm_compute).
  assert (wf_grid all_done) as HS
    by (apply (bool_decide_unpack _); by vm_compute).
  assert (solution all_done) as Hsol
    by (apply solutionb_sound; by vm_compute).
  assert (keeps nearly_done all_done) as Hk
    by (apply keepsb_sound; [done|done|by vm_compute]).
  split_and!; [done..|].
  exact (solve_finds_solution nearly_done all_done HG Hsol Hk).
Defined.

(** X4. When [solve] leaves a grid that is not completed, the grid it was
    called on has no solution: no filled grid that obeys the rules holds
    every number assigned in it. *)
Theorem solve_exhausted_no_solution fuel G G' :
  wf_grid G → solve fuel G = Some (Ok G') → is_completed G' = Ok false →
  ¬ ∃ S, solution S ∧ keeps G S.
Proof.
  intros HG Hsolve Hinc (S & HS & Hkeeps).
  assert (wf_grid S) as HwS by by destruct HS.
  apply keeps_extends in Hkeeps; [|done..].
  rewrite solve_spec in Hsolve by done. unfold Spec.solve in Hsolve.
  destruct (Spec.loop fuel G [G] None) as [res|] eqn:Hres; [|done].
  injection Hsolve as <-.
  assert (wf_grid (Spec.live res)) as Hwf.
  { apply (loop_wf _ _ _ _ _ HG) in Hres; [done|by constructor]. }
  rewrite is_completed_spec in Hinc by done.
  rewrite (spec_solve_completes _ G S res HG HS Hkeeps Hres) in Hinc.
  done.
Qed.

Lemma solve_exhausted_no_solution_witness :
  wf_grid dead_end ∧ solve 1 dead_end = Some (Ok dead_end)
  ∧ is_completed dead_end = Ok false
  ∧ ¬ ∃ S, solution S ∧ keeps dead_end S.
Proof.
  assert (wf_grid dead_end) as HG
    by (apply (bool_decide_unpack _); by vm_compute).
  assert (solve 1 dead_end = Some (Ok dead_end)) as Hsolve by (by vm_compute).
  assert (is_completed dead_end = Ok false) as Hinc by (by vm_compute).
  split_and!; [done..|].
  exact (solve_exhausted_no_solution 1 dead_end dead_end HG Hsolve Hinc).
Defined.

(** ** Bulk operations *)

Lemma clear_init G : wf_grid G → clear G = Ok init.
Proof.
  intros [Hlen Hall]. explode_list G Hlen. explode_rows Hall. reflexivity.
Qed.

(** X5. [clear] never fails on a grid and leaves every cell 0; the cleared
    grid is not completed. *)
Theorem clear_all_zero G :
  wf_grid G →
  clear G = Ok init
  ∧ (∀ r c, coord r → coord c → get_number init r c = Ok 0)
  ∧ is_completed init = Ok false.
Proof.
  intros HG. split_and!.
  - by apply clear_init.
  - intros r c Hr Hc. case_coord Hr; case_coord Hc; reflexivity.
  - by vm_compute.
Qed.

Lemma clear_all_zero_witness :
  wf_grid foo
  ∧ clear foo = Ok init
  ∧ (∀ r c, coord r → coord c → get_number init r c = Ok 0)
  ∧ is_completed init = Ok false.
Proof.
  assert (wf_grid foo) as HG by (apply (bool_decide_unpack _); by vm_compute).
  split; [done|]. exact (clear_all_zero foo HG).
Defined.

(** X6. A snapshot restores the grid: [set_grid] with the array that
    [get_grid] returned for a grid [Q] puts [Q] back, cell for cell,
    whatever the grid holds at that moment. *)
Theorem set_grid_restores_snapshot G Q :
  wf_grid Q → set_grid G (get_grid Q) = Q.
Proof. apply set_grid_get_grid. Qed.

Lemma set_grid_restores_snapshot_witness :
  wf_grid foo ∧ set_grid dead_end (get_grid foo) = foo.
Proof.
  assert (wf_grid foo) as HG by (apply (bool_decide_unpack _); by vm_compute).
  split; [done|]. exact (set_grid_restores_snapshot dead_end foo HG).
Defined.

(** ** Cells *)

(** X7. [set_number] on a cell of the grid changes that cell only: the
    grid stays 9x9 and every other cell reads as before. *)
Theorem set_number_other_cells G row column v G' r c :
  wf_grid G → coord row → coord column → coord r → coord c →
  (r, c) ≠ (row, column) →
  set_number G row column v = Ok G' →
  wf_grid G' ∧ get_number G' r c = get_number G r c.
Proof.
  intros HG Hrow Hcol Hr Hc Hne Hset.
  rewrite set_number_set in Hset by done. injection Hset as <-.
  assert (wf_grid (Spec.set G row column (Np.wrap8 v))) as HG'.
  { apply wf_grid_set; [done|apply int8_wrap8]. }
  split; [done|]. rewrite !get_number_cell by done. f_equal.
  apply cell_set_ne; unfold coord in *; lia || done.
Qed.

Lemma set_number_other_cells_witness :
  wf_grid foo ∧ coord 0 ∧ coord 1 ∧ coord 7 ∧ (0, 7) ≠ (0, 0)
  ∧ (∃ G', set_number foo 0 0 9 = Ok G'
           ∧ wf_grid G' ∧ get_number G' 0 7 = get_number foo 0 7).
Proof.
  assert (wf_grid foo) as HG by (apply (bool_decide_unpack _); by vm_compute).
  assert (coord 0) as H0 by (unfold coord; lia).
  assert (coord 1) as H1 by (unfold coord; lia).
  assert (coord 7) as H7 by (unfold coord; lia).
  assert ((0, 7) ≠ (0, 0)) as Hne by done.
  split_and!; [done..|].
  destruct (set_number foo 0 0 9) as [G'|e] eqn:Hset; [|by vm_compute in Hset].
  exists G'. split; [done|].
  exact (set_number_other_cells foo 0 0 9 G' 0 7 HG H0 H0 H0 H7 Hne Hset).
Defined.

(** ** Completion *)

(** X8. [is_completed] never fails on a grid and answers true exactly when
    each of the 81 cells holds a number above 0; it checks nothing else. *)
Theorem is_completed_all_assigned G :
  wf_grid G →
  ∃ b, is_completed G = Ok b
    ∧ (b = true ↔
       ∀ r c, coord r → coord c → ∃ v, get_number G r c = Ok v ∧ 0 < v).
Proof.
  intros HG. exists (Spec.completed G). split; [by apply is_completed_spec|].
  rewrite completed_assigned. split.
  - intros H r c Hr Hc. exists (Spec.cell G r c).
    split; [by apply get_number_cell|by apply H].
  - intros H r c Hr Hc. destruct (H r c Hr Hc) as (v & Hget & Hv).
    rewrite get_number_cell in Hget by done. by injection Hget as ->.
Qed.

Lemma is_completed_all_assigned_witness :
  wf_grid all_done ∧ is_completed all_done = Ok true
  ∧ is_completed nearly_done = Ok false
  ∧ ∃ b, is_completed all_done = Ok b
    ∧ (b = true ↔
       ∀ r c, coord r → coord c →
              ∃ v, get_number all_done r c = Ok v ∧ 0 < v).
Proof.
  assert (wf_grid all_done) as HG
    by (apply (bool_decide_unpack _); by vm_compute).
  split_and!; [done|by vm_compute|by vm_compute|].
  exact (is_completed_all_assigned all_done HG).
Defined.

(** X9. [find_most_constrained] returns the sentinel [(-1, -1)] exactly
    when the grid is completed; on any other grid it returns a cell of the
    grid that is not solved. *)
Theorem find_most_constrained_sentinel G :
  wf_grid G →
  (find_most_constrained G = Ok (-1, -1) ↔ is_completed G = Ok true)
  ∧ (is_completed G = Ok false →
     ∃ r c, find_most_constrained G = Ok (r, c) ∧ coord r ∧ coord c
            ∧ is_solved G r c = Ok false).
Proof.
  intros HG. rewrite find_most_constrained_spec, is_completed_spec by done.
  assert (Spec.completed G = false →
          ∃ r c, Spec.most_constrained G = (r, c) ∧ coord r ∧ coord c
                 ∧ is_solved G r c = Ok false) as Hcell.
  { intros Hc. destruct (most_constrained_unassigned G Hc) as (Hr & Hcc & Hu).
    destruct (Spec.most_constrained G) as [r c]. cbn [fst snd] in *.
    exists r, c. split_and!; [done..|].
    rewrite is_solved_assigned by done. f_equal.
    unfold Spec.assigned. by apply bool_decide_eq_false_2. }
  split.
  - split.
    + intros Hmc. destruct (Spec.completed G) eqn:Hc; [done|].
      destruct (Hcell eq_refl) as (r & c & Heq & Hr & _).
      injection Hmc as Hmc. rewrite Hmc in Heq. injection Heq as <- <-.
      unfold coord in Hr. lia.
    + intros Hc. injection Hc as Hc. f_equal.
      apply most_constrained_sentinel. by apply completed_unassigned_cells.
  - intros Hc. injection Hc as Hc.
    destruct (Hcell Hc) as (r & c & Heq & Hr & Hcc & Hs).
    exists r, c. by rewrite Heq.
Qed.

Lemma find_most_constrained_sentinel_witness :
  wf_grid all_done
  ∧ find_most_constrained all_done = Ok (-1, -1)
  ∧ (find_most_constrained all_done = Ok (-1, -1)
     ↔ is_completed all_done = Ok true)
  ∧ (is_completed all_done = Ok false →
     ∃ r c, find_most_constrained all_done = Ok (r, c) ∧ coord r ∧ coord c
            ∧ is_solved all_done r c = Ok false).
Proof.
  assert (wf_grid all_done) as HG
    by (apply (bool_decide_unpack _); by vm_compute).
  split_and!; [done|by vm_compute|..].
  - exact (proj1 (find_most_constrained_sentinel all_done HG)).
  - exact (proj2 (find_most_constrained_sentinel all_done HG)).
Defined.

(** ** Edge cases of the search *)

(** X10. On a completed grid [solve] does nothing: it returns at once,
    whatever the number of rounds allowed, and the grid is unchanged, be it
    a valid solution or not. *)
Theorem solve_completed_unchanged fuel G :
  wf_grid G → is_completed G = Ok true → solve fuel G = Some (Ok G).
Proof.
  intros HG Hc. rewrite solve_spec by done. unfold Spec.solve.
  rewrite is_completed_spec in Hc by done. injection Hc as Hc.
  by rewrite loop_exit_completed.
Qed.

Lemma solve_completed_unchanged_witness :
  wf_grid all_done ∧ is_completed all_done = Ok true
  ∧ solve 0 all_done = Some (Ok all_done).
Proof.
  assert (wf_grid all_done) as HG
    by (apply (bool_decide_unpack _); by vm_compute).
  assert (is_completed all_done = Ok true) as Hc by (by vm_compute).
  split_and!; [done..|]. exact (solve_completed_unchanged 0 all_done HG Hc).
Defined.

(** X11. When the most-constrained cell of the grid has no candidate,
    [solve] pushes nothing, pops the snapshot it started with and stops
    after one round: the grid is left as it was, not completed. *)
Theorem solve_dead_end_unchanged fuel G r c :
  wf_grid G → is_completed G = Ok false →
  find_most_constrained G = Ok (r, c) → get_possibilities G r c = Ok [] →
  solve (S fuel) G = Some (Ok G).
Proof.
  intros HG Hc Hmc Hps. rewrite solve_spec by done. unfold Spec.solve.
  rewrite is_completed_spec in Hc by done. injection Hc as Hc.
  rewrite find_most_constrained_spec in Hmc by done. injection Hmc as Hmc.
  destruct (most_constrained_unassigned G Hc) as (Hr & Hcc & _).
  rewrite Hmc in Hr, Hcc. cbn [fst snd] in Hr, Hcc.
  rewrite get_possibilities_spec in Hps by done. injection Hps as Hps.
  assert (children G = []) as Hch.
  { unfold children. by rewrite Hmc; cbn [fst snd]; rewrite Hps. }
  rewrite (loop_round fuel G [G] None G []);
    [by rewrite loop_exit_exhausted|done|done|by rewrite Hch].
Qed.

Lemma solve_dead_end_unchanged_witness :
  wf_grid dead_end ∧ is_completed dead_end = Ok false
  ∧ find_most_constrained dead_end = Ok (0, 0)
  ∧ get_possibilities dead_end 0 0 = Ok []
  ∧ solve 3 dead_end = Some (Ok dead_end).
Proof.
  assert (wf_grid dead_end) as HG
    by (apply (bool_decide_unpack _); by vm_compute).
  assert (is_completed dead_end = Ok false) as Hc by (by vm_compute).
  assert (find_most_constrained dead_end = Ok (0, 0)) as Hmc
    by (by vm_compute).
  assert (get_possibilities dead_end 0 0 = Ok []) as Hps by (by vm_compute).
  split_and!; [done..|].
  exact (solve_dead_end_unchanged 2 dead_end 0 0 HG Hc Hmc Hps).
Defined.

(** ** Rendering *)

Lemma has_char_app ch s1 s2 :
  has_char ch (s1 +:+ s2) = has_char ch s1 || has_char ch s2.
Proof.
  induction s1 as [|x s1 IH]; [done|].
  simpl. by rewrite IH, orb_assoc.
Qed.

Lemma show_cell_question n :
  Np.int8 n →
  has_char question_mark (show_cell n) = negb (bool_decide (0 < n)).
Proof.
  intros H8. unfold show_cell. case_bool_decide as Hpos; [|done].
  assert (n ∈ seqZ 1 127) as Hin by (unfold Np.int8 in H8; apply elem_of_seqZ; lia).
  assert (Forall (λ n, has_char question_mark (pretty n) = false) (seqZ 1 127)) as Hall
    by (apply (bool_decide_unpack _); by vm_compute).
  rewrite Forall_forall in Hall. by apply Hall.
Qed.

Lemma to_string_rows G :
  wf_grid G →
  ∃ r0 r1 r2 r3 r4 r5 r6 r7 r8,
    G = [r0; r1; r2; r3; r4; r5; r6; r7; r8]
    ∧ to_string G
      = Ok (String.concat newline
              [ show_row r0; show_row r1; show_row r2; "---+---+---"%string;
                show_row r3; show_row r4; show_row r5; "---+---+---"%string;
                show_row r6; show_row r7; show_row r8 ]).
Proof.
  intros [Hlen Hall]. explode_list G Hlen.
  do 9 eexists. split; [done|].
  explode_rows Hall. reflexivity.
Qed.

(** X12. [to_string] never fails on a grid and always gives eleven lines
    joined by newlines: the nine rows in order, each as three groups of
    three cells with a bar between groups, and the line [---+---+---] after
    the third and after the sixth row. *)
Theorem to_string_layout G :
  wf_grid G →
  ∃ r0 r1 r2 r3 r4 r5 r6 r7 r8,
    G = [r0; r1; r2; r3; r4; r5; r6; r7; r8]
    ∧ to_string G
      = Ok (String.concat newline
              [ show_row r0; show_row r1; show_row r2; "---+---+---"%string;
                show_row r3; show_row r4; show_row r5; "---+---+---"%string;
                show_row r6; show_row r7; show_row r8 ]).
Proof. apply to_string_rows. Qed.

Lemma to_string_layout_witness :
  wf_grid foo
  ∧ to_string foo
    = Ok (String.concat newline
            [ "???|???|?1?"; "4??|???|???"; "?2?|???|???"; "---+---+---";
              "???|?5?|4?7"; "??8|???|3??"; "??1|?9?|???"; "---+---+---";
              "3??|4??|2??"; "?5?|1??|???"; "???|8?6|???" ]%string)
  ∧ ∃ r0 r1 r2 r3 r4 r5 r6 r7 r8,
      foo = [r0; r1; r2; r3; r4; r5; r6; r7; r8]
      ∧ to_string foo
        = Ok (String.concat newline
                [ show_row r0; show_row r1; show_row r2; "---+---+---"%string;
                  show_row r3; show_row r4; show_row r5; "---+---+---"%string;
                  show_row r6; show_row r7; show_row r8 ]).
Proof.
  assert (wf_grid foo) as HG by (apply (bool_decide_unpack _); by vm_compute).
  split_and!; [done|by vm_compute|]. exact (to_string_layout foo HG).
Defined.

Lemma show_row_question (line : list Z) :
  length line = 9%nat → Forall Np.int8 line →
  has_char question_mark (show_row line)
  = existsb (λ n, negb (bool_decide (0 < n))) line.
Proof.
  intros Hlen H8. explode_list line Hlen.
  repeat (apply Forall_cons in H8 as [? H8]).
  unfold show_row. cbn [String.concat existsb].
  rewrite !has_char_app, !show_cell_question by done.
  change (has_char question_mark "|") with false.
  change (has_char question_mark "") with false.
  rewrite !orb_false_l, !orb_false_r. done.
Qed.

Lemma existsb_negb_forallb {A} (f : A → bool) l :
  existsb (λ x, negb (f x)) l = negb (forallb f l).
Proof.
  induction l as [|x l IH]; [done|]. cbn [existsb forallb].
  rewrite IH. by destruct (f x).
Qed.

Lemma completed_join G :
  wf_grid G →
  Spec.completed G = forallb (λ n, bool_decide (0 < n)) (mjoin G).
Proof.
  intros [Hlen Hall]. explode_list G Hlen. explode_rows Hall. reflexivity.
Qed.

(** X13. The rendering shows a question mark exactly when the grid is not
    completed: [to_string] of a grid contains the character [?] if and only
    if [is_completed] answers false. *)
Theorem to_string_question_mark G :
  wf_grid G →
  ∃ s, to_string G = Ok s
    ∧ (has_char question_mark s = true ↔ is_completed G = Ok false).
Proof.
  intros HG.
  destruct (to_string_rows G HG)
    as (r0 & r1 & r2 & r3 & r4 & r5 & r6 & r7 & r8 & HGeq & Hstr).
  eexists. split; [exact Hstr|].
  rewrite is_completed_spec, completed_join by done.
  assert (Forall (λ line, length line = 9%nat ∧ Forall Np.int8 line) G) as Hall
    by by destruct HG.
  rewrite HGeq in Hall |- *.
  repeat (apply Forall_cons in Hall as [[? ?] Hall]).
  cbn [String.concat]. rewrite !has_char_app, !show_row_question by done.
  change (has_char question_mark newline) with false.
  change (has_char question_mark "---+---+---") with false.
  rewrite !orb_false_l.
  cbn [mjoin list_join]. rewrite app_nil_r, !forallb_app.
  rewrite !existsb_negb_forallb.
  repeat match goal with |- context [forallb ?f ?l] =>
    destruct (forallb f l); cbn [negb orb andb] end;
  split; (done || (intros [=]; done) || congruence).
Qed.

Lemma to_string_question_mark_witness :
  wf_grid all_done ∧ is_completed all_done = Ok true
  ∧ ∃ s, to_string all_done = Ok s
      ∧ (has_char question_mark s = true ↔ is_completed all_done = Ok false).
Proof.
  assert (wf_grid all_done) as HG
    by (apply (bool_decide_unpack _); by vm_compute).
  split_and!; [done|by vm_compute|]. exact (to_string_question_mark all_done HG).
Defined.

(** ** The command loop *)

Lemma print_grid_ok G : wf_grid G → ∃ out, print_grid G = Ok out.
Proof.
  intros HG. unfold print_grid.
  destruct (to_string_rows G HG)
    as (r0 & r1 & r2 & r3 & r4 & r5 & r6 & r7 & r8 & _ & ->).
  by eexists.
Qed.

Lemma solve_ok fuel G r :
  wf_grid G → solve fuel G = Some r → ∃ G', r = Ok G' ∧ wf_grid G'.
Proof.
  intros HG Hsolve. rewrite solve_spec in Hsolve by done.
  unfold Spec.solve in Hsolve.
  destruct (Spec.loop fuel G [G] None) as [res|] eqn:Hres; [|done].
  injection Hsolve as <-. exists (Spec.live res). split; [done|].
  apply (loop_wf _ _ _ _ _ HG) in Hres; [done|by constructor].
Qed.

Lemma wf_grid_foo : wf_grid foo.
Proof. apply (bool_decide_unpack _). by vm_compute. Qed.

Lemma set_grid_get_grid_foo G : set_grid G (Np.Nd [9; 9] (mjoin foo)) = foo.
Proof. apply (set_grid_get_grid G foo wf_grid_foo). Qed.

Lemma wf_grid_init : wf_grid init.
Proof. apply (bool_decide_unpack _). by vm_compute. Qed.

(** X14. No command makes the program fail with [IndexError], and every
    command leaves a 9x9 grid: whatever words are entered and whatever
    [int] makes of them, the pass ends normally.  The range test of [set]
    and [unset] is what keeps the coordinates handed to [set_number] inside
    the grid. *)
Theorem command_never_raises int fuel G stop split_input r :
  wf_grid G → command int fuel G stop split_input = Some r →
  ∃ G' stop' out, r = Ok (G', stop', out) ∧ wf_grid G'.
Proof.
  intros HG Hcmd. unfold command in Hcmd.
  assert (∀ G' (k : list string → result (grid * bool * list string)) st,
            wf_grid G' → (∀ out, k out = Ok (G', st, out)) →
            ∃ G'' stop' out, (print_grid G' ≫= k) = Ok (G'', stop', out)
                             ∧ wf_grid G'') as Hprint.
  { intros G' k st HG' Hk. destruct (print_grid_ok G' HG') as [out ->].
    rewrite bind_Ok, Hk. by eexists _, _, _. }
  assert (∀ row column value,
            1 ≤ row ≤ 9 → 1 ≤ column ≤ 9 →
            ∃ G'' stop' out,
              (G' ← set_number G (row - 1) (column - 1) value;
               out ← print_grid G'; Ok (G', stop, out))
              = Ok (G'', stop', out) ∧ wf_grid G'') as Hset.
  { intros row column value Hrow Hcol.
    rewrite set_number_set, bind_Ok by (done || unfold coord; lia).
    apply (Hprint _ _ stop); [|done].
    apply wf_grid_set; [done|apply int8_wrap8]. }
  destruct split_input as [|cmd args]; [simplify_eq; by eexists _, _, _|].
  case_bool_decide.
  { destruct args as [|a1 [|a2 [|a3 [|a4 args]]]];
      try (simplify_eq; by eexists _, _, _).
    destruct (int a1) as [row|], (int a2) as [column|], (int a3) as [value|];
      try (simplify_eq; by eexists _, _, _).
    destruct (_ && _) eqn:Hrange; [|simplify_eq; by eexists _, _, _].
    repeat match goal with
    | H : _ && _ = true |- _ => apply andb_true_iff in H as [? ?]
    | H : bool_decide _ = true |- _ => apply bool_decide_eq_true_1 in H
    end.
    simplify_eq. by apply Hset. }
  case_bool_decide.
  { destruct args as [|a1 [|a2 [|a3 args]]];
      try (simplify_eq; by eexists _, _, _).
    destruct (int a1) as [row|], (int a2) as [column|];
      try (simplify_eq; by eexists _, _, _).
    destruct (_ && _) eqn:Hrange; [|simplify_eq; by eexists _, _, _].
    repeat match goal with
    | H : _ && _ = true |- _ => apply andb_true_iff in H as [? ?]
    | H : bool_decide _ = true |- _ => apply bool_decide_eq_true_1 in H
    end.
    simplify_eq. by apply Hset. }
  case_bool_decide.
  { destruct args; simplify_eq; [|by eexists _, _, _].
    rewrite (clear_init G HG), bind_Ok.
    apply (Hprint _ _ stop); [apply wf_grid_init|done]. }
  case_bool_decide.
  { destruct args; apply (inj Some) in Hcmd; subst r; [|by eexists _, _, _].
    apply (Hprint _ _ stop); [|done].
    unfold foo_array. rewrite set_grid_get_grid_foo. apply wf_grid_foo. }
  case_bool_decide.
  { destruct args; [|simplify_eq; by eexists _, _, _].
    destruct (solve fuel G) as [r'|] eqn:Hsolve; [|done].
    destruct (solve_ok _ _ _ HG Hsolve) as (G'' & -> & HG'').
    simplify_eq. by apply (Hprint _ _ stop). }
  case_bool_decide.
  { destruct args; simplify_eq; by eexists _, _, _. }
  simplify_eq. by eexists _, _, _.
Qed.

Lemma command_never_raises_witness :
  wf_grid foo
  ∧ command int_of_digit 0 foo false ["set"; "1"; "0"; "9"]%string
    = Some (Ok (foo, false,
         ["Error: All arguments must be numbers between 1 and 9."]%string))
  ∧ ∃ G' stop' out,
      Ok (foo, false,
          ["Error: All arguments must be numbers between 1 and 9."]%string)
      = Ok (G', stop', out) ∧ wf_grid G'.
Proof.
  assert (wf_grid foo) as HG by (apply (bool_decide_unpack _); by vm_compute).
  assert (command int_of_digit 0 foo false ["set"; "1"; "0"; "9"]%string
          = Some (Ok (foo, false,
              ["Error: All arguments must be numbers between 1 and 9."
              ]%string))) as Hcmd by (by vm_compute).
  split_and!; [done..|].
  exact (command_never_raises int_of_digit 0 foo false _ _ HG Hcmd).
Defined.

(** X15. [set row column value] with three numbers between 1 and 9 writes
    [value] into the cell at [(row - 1, column - 1)] and nothing else: every
    other cell reads as before, the loop goes on as it was, and what is
    printed is a blank line, the rendering of the new grid and a blank
    line. *)
Theorem command_set_writes_cell int fuel G stop a1 a2 a3 row column value :
  wf_grid G →
  int a1 = Some row → int a2 = Some column → int a3 = Some value →
  1 ≤ row ≤ 9 → 1 ≤ column ≤ 9 → 1 ≤ value ≤ 9 →
  ∃ G' s,
    command int fuel G stop ["set"%string; a1; a2; a3]
    = Some (Ok (G', stop, [""; s; ""]%string))
    ∧ to_string G' = Ok s
    ∧ get_number G' (row - 1) (column - 1) = Ok value
    ∧ ∀ r c, coord r → coord c → (r, c) ≠ (row - 1, column - 1) →
             get_number G' r c = get_number G r c.
Proof.
  intros HG H1 H2 H3 Hrow Hcol Hval.
  assert (coord (row - 1)) as Hr by (unfold coord; lia).
  assert (coord (column - 1)) as Hc by (unfold coord; lia).
  assert (Np.int8 value) as H8 by (unfold Np.int8; lia).
  assert (wf_grid (Spec.set G (row - 1) (column - 1) value)) as HG'
    by by apply wf_grid_set.
  destruct (to_string_rows _ HG')
    as (r0 & r1 & r2 & r3 & r4 & r5 & r6 & r7 & r8 & _ & Hstr).
  eexists (Spec.set G (row - 1) (column - 1) value), _.
  split_and!; [|exact Hstr|..].
  - unfold command. rewrite bool_decide_eq_true_2 by done.
    rewrite H1, H2, H3.
    rewrite !bool_decide_eq_true_2 by lia. cbn [andb].
    rewrite set_number_set, bind_Ok, wrap8_int8 by done.
    unfold print_grid. by rewrite Hstr.
  - rewrite get_number_cell by done. by rewrite cell_set_eq.
  - intros r c Hr' Hc' Hne. rewrite !get_number_cell by done. f_equal.
    apply cell_set_ne; unfold coord in *; lia || done.
Qed.

Lemma command_set_writes_cell_witness :
  wf_grid foo
  ∧ int_of_digit "1" = Some 1 ∧ int_of_digit "9" = Some 9
  ∧ 1 ≤ 1 ≤ 9 ∧ 1 ≤ 9 ≤ 9
  ∧ ∃ G' s,
      command int_of_digit 0 foo false ["set"; "1"; "1"; "9"]%string
      = Some (Ok (G', false, [""; s; ""]%string))
      ∧ to_string G' = Ok s
      ∧ get_number G' (1 - 1) (1 - 1) = Ok 9
      ∧ ∀ r c, coord r → coord c → (r, c) ≠ (1 - 1, 1 - 1) →
               get_number G' r c = get_number foo r c.
Proof.
  assert (wf_grid foo) as HG by (apply (bool_decide_unpack _); by vm_compute).
  assert (int_of_digit "1" = Some 1) as H1 by reflexivity.
  assert (int_of_digit "9" = Some 9) as H9 by reflexivity.
  assert (1 ≤ 1 ≤ 9) as Hr by lia.
  assert (1 ≤ 9 ≤ 9) as Hv by lia.
  split_and!; [done..|].
  exact (command_set_writes_cell int_of_digit 0 foo false "1" "1" "9" 1 1 9
           HG H1 H1 H9 Hr Hr Hv).
Defined.

(** X16. [set] touches the grid only when it is given exactly three words
    that [int] reads as numbers between 1 and 9.  In every other case the
    grid and the loop stay as they are and one line is printed, an error
    message; in particular [set_number] is never reached with a coordinate
    outside the grid. *)
Theorem command_set_rejects int fuel G stop args :
  ¬ (∃ a1 a2 a3 row column value,
       args = [a1; a2; a3]
       ∧ int a1 = Some row ∧ int a2 = Some column ∧ int a3 = Some value
       ∧ 1 ≤ row ≤ 9 ∧ 1 ≤ column ≤ 9 ∧ 1 ≤ value ≤ 9) →
  ∃ message,
    command int fuel G stop ("set"%string :: args)
    = Some (Ok (G, stop, [message]))
    ∧ message ∈
        [ "Error: Command 'set' takes exactly 3 arguments.";
          "Error: Illegal argument.";
          "Error: All arguments must be numbers between 1 and 9." ]%string.
Proof.
  intros Hbad. unfold command. rewrite bool_decide_eq_true_2 by done.
  destruct args as [|a1 [|a2 [|a3 [|a4 args]]]];
    try (eexists; split; [done|]; by left).
  destruct (int a1) as [row|] eqn:H1, (int a2) as [column|] eqn:H2,
           (int a3) as [value|] eqn:H3;
    try (eexists; split; [done|]; right; by left).
  destruct (_ && _) eqn:Hrange;
    [|eexists; split; [done|]; right; right; by left].
  exfalso. apply Hbad.
  repeat match goal with
  | H : _ && _ = true |- _ => apply andb_true_iff in H as [? ?]
  | H : bool_decide _ = true |- _ => apply bool_decide_eq_true_1 in H
  end.
  by exists a1, a2, a3, row, column, value.
Qed.

Lemma command_set_rejects_witness :
  ¬ (∃ a1 a2 a3 row column value,
       ["10"; "1"; "1"]%string = [a1; a2; a3]
       ∧ int_of_digit a1 = Some row ∧ int_of_digit a2 = Some column
       ∧ int_of_digit a3 = Some value
       ∧ 1 ≤ row ≤ 9 ∧ 1 ≤ column ≤ 9 ∧ 1 ≤ value ≤ 9)
  ∧ ∃ message,
      command int_of_digit 0 foo false ("set" :: ["10"; "1"; "1"])%string
      = Some (Ok (foo, false, [message]))
      ∧ message ∈
          [ "Error: Command 'set' takes exactly 3 arguments.";
            "Error: Illegal argument.";
            "Error: All arguments must be numbers between 1 and 9." ]%string.
Proof.
  assert (¬ (∃ a1 a2 a3 row column value,
       ["10"; "1"; "1"]%string = [a1; a2; a3]
       ∧ int_of_digit a1 = Some row ∧ int_of_digit a2 = Some column
       ∧ int_of_digit a3 = Some value
       ∧ 1 ≤ row ≤ 9 ∧ 1 ≤ column ≤ 9 ∧ 1 ≤ value ≤ 9)) as Hbad.
  { intros (a1 & a2 & a3 & row & column & value & Heq & H1 & _).
    injection Heq as <- <- <-. by vm_compute in H1. }
  split; [done|].
  exact (command_set_rejects int_of_digit 0 foo false _ Hbad).
Defined.

(** X17. Only the word [exit] alone ends the loop: after a pass [stop] is
    true exactly when it was true before or the words entered are the
    single word [exit], and [exit] leaves the grid as it is. *)
Theorem command_stop int fuel G stop split_input G' stop' out :
  command int fuel G stop split_input = Some (Ok (G', stop', out)) →
  (stop' = true ↔ stop = true ∨ split_input = ["exit"%string])
  ∧ (split_input = ["exit"%string] → G' = G).
Proof.
  intros Hcmd. unfold command in Hcmd.
  assert (∀ (m : result (list string)) X st,
            (out ← m; Ok (X, st, out)) = Ok (G', stop', out) → st = stop')
    as Hprint.
  { intros [o|e] X st H; [|done]. rewrite bind_Ok in H. by injection H. }
  assert (∀ words : list string,
            stop' = stop → words ≠ ["exit"%string] →
            (stop' = true ↔ stop = true ∨ words = ["exit"%string])
            ∧ (words = ["exit"%string] → G' = G)) as Hsame.
  { intros words -> Hw. split; [|done].
    split; [by left|]. by intros [Hs|Hs]. }
  destruct split_input as [|cmd args].
  { apply Hsame; [by simplify_eq|done]. }
  case_bool_decide as Hset.
  { subst cmd. apply Hsame; [|done].
    destruct args as [|a1 [|a2 [|a3 [|a4 args]]]]; try by simplify_eq.
    destruct (int a1), (int a2), (int a3); try by simplify_eq.
    destruct (_ && _); [|by simplify_eq].
    apply (inj Some) in Hcmd.
    destruct (set_number _ _ _ _) as [X|e]; [|done].
    rewrite bind_Ok in Hcmd. symmetry. by apply (Hprint _ _ _ Hcmd). }
  case_bool_decide as Hunset.
  { subst cmd. apply Hsame; [|done].
    destruct args as [|a1 [|a2 [|a3 args]]]; try by simplify_eq.
    destruct (int a1), (int a2); try by simplify_eq.
    destruct (_ && _); [|by simplify_eq].
    apply (inj Some) in Hcmd.
    destruct (set_number _ _ _ _) as [X|e]; [|done].
    rewrite bind_Ok in Hcmd. symmetry. by apply (Hprint _ _ _ Hcmd). }
  case_bool_decide as Hclear.
  { subst cmd. apply Hsame; [|done].
    destruct args; [|by simplify_eq]. apply (inj Some) in Hcmd.
    destruct (clear G) as [X|e]; [|done].
    rewrite bind_Ok in Hcmd. symmetry. by apply (Hprint _ _ _ Hcmd). }
  case_bool_decide as Hfoo.
  { subst cmd. apply Hsame; [|done].
    destruct args; apply (inj Some) in Hcmd; [|by simplify_eq].
    symmetry. by apply (Hprint _ _ _ Hcmd). }
  case_bool_decide as Hsolve.
  { subst cmd. apply Hsame; [|done].
    destruct args; [|by simplify_eq].
    destruct (solve fuel G) as [[X|e]|]; [|done..].
    apply (inj Some) in Hcmd. symmetry. by apply (Hprint _ _ _ Hcmd). }
  case_bool_decide as Hexit.
  { subst cmd. destruct args; simplify_eq.
    - split; [|done]. split; [by right|done].
    - by apply Hsame. }
  apply Hsame; [by simplify_eq|]. intros [=]. done.
Qed.

Lemma command_stop_witness :
  command int_of_digit 0 foo false ["exit"]%string = Some (Ok (foo, true, []))
  ∧ (true = true ↔ false = true ∨ ["exit"]%string = ["exit"]%string)
  ∧ (["exit"]%string = ["exit"]%string → foo = foo).
Proof.
  assert (command int_of_digit 0 foo false ["exit"]%string
          = Some (Ok (foo, true, []))) as Hcmd by reflexivity.
  split; [done|].
  exact (command_stop int_of_digit 0 foo false _ foo true [] Hcmd).
Defined.
